(** * Story video export: timing, compositing and encoding pipeline

    A shallow embedding of [services/videoRecorder.ts]
    ([generateStoryVideo], [loadVideo], [loadImage], [drawAsset],
    [drawCinematicTransition], [drawSubtitles]) and the properties of its
    timeline, frame compositor, progress reports and error path.

    Numbers.  JavaScript numbers that are finite by construction (clock
    readings, constants, canvas sizes) are rationals [Q]; rounding of
    binary64 arithmetic is not modelled.  Where the source can meet a
    non-finite value (a division whose divisor may be zero, a media
    duration) the four-point extension [Js.num] is used. *)

From Stdlib Require Import QArith Qminmax Lqa Lia ZArith NArith Bool List
  String Ascii Arith Sorted.
Import ListNotations.

Local Open Scope Q_scope.

(* ------------------------------------------------------------------ *)
(** ** JavaScript numbers *)

Module Js.

(** A number is [NaN], an infinity or a finite value. *)
Inductive num : Type :=
| NaN
| NegInf
| Fin (q : Q)
| PosInf.

Definition isFinite (a : num) : bool :=
  match a with Fin _ => true | _ => false end.

(** [a / b].  A zero divisor is taken as [+0]. *)
Definition div (a b : num) : num :=
  match a, b with
  | NaN, _ | _, NaN => NaN
  | Fin x, Fin y =>
      if Qeq_bool y 0 then
        match x ?= 0 with Eq => NaN | Gt => PosInf | Lt => NegInf end
      else Fin (x / y)
  | Fin _, _ => Fin 0
  | PosInf, Fin y => match y ?= 0 with Lt => NegInf | _ => PosInf end
  | NegInf, Fin y => match y ?= 0 with Lt => PosInf | _ => NegInf end
  | _, _ => NaN
  end.

(** [a * b]. *)
Definition mul (a b : num) : num :=
  match a, b with
  | NaN, _ | _, NaN => NaN
  | Fin x, Fin y => Fin (x * y)
  | Fin x, PosInf | PosInf, Fin x =>
      match x ?= 0 with Eq => NaN | Gt => PosInf | Lt => NegInf end
  | Fin x, NegInf | NegInf, Fin x =>
      match x ?= 0 with Eq => NaN | Gt => NegInf | Lt => PosInf end
  | PosInf, PosInf | NegInf, NegInf => PosInf
  | PosInf, NegInf | NegInf, PosInf => NegInf
  end.

(** [a - b]. *)
Definition sub (a b : num) : num :=
  match a, b with
  | NaN, _ | _, NaN => NaN
  | Fin x, Fin y => Fin (x - y)
  | Fin _, PosInf => NegInf
  | Fin _, NegInf => PosInf
  | PosInf, PosInf | NegInf, NegInf => NaN
  | PosInf, _ => PosInf
  | NegInf, _ => NegInf
  end.

(** [a > b]; every comparison with [NaN] is false. *)
Definition gt (a b : num) : bool :=
  match a, b with
  | NaN, _ | _, NaN => false
  | Fin x, Fin y => negb (Qle_bool x y)
  | PosInf, PosInf => false
  | PosInf, _ => true
  | NegInf, _ => false
  | Fin _, NegInf => true
  | Fin _, PosInf => false
  end.

(** [a >= b]. *)
Definition ge (a b : num) : bool :=
  match a, b with
  | NaN, _ | _, NaN => false
  | Fin x, Fin y => Qle_bool y x
  | PosInf, _ => true
  | _, NegInf => true
  | NegInf, _ => false
  | Fin _, PosInf => false
  end.

(** Truthiness of a number: [0] and [NaN] are falsy. *)
Definition truthy (a : num) : bool :=
  match a with
  | NaN => false
  | Fin q => negb (Qeq_bool q 0)
  | _ => true
  end.

(** [a || b] on numbers. *)
Definition or (a b : num) : num := if truthy a then a else b.

(** An unsigned integer attribute (an intrinsic width or height). *)
Definition ofN (n : N) : num := Fin (inject_Z (Z.of_N n)).

(** [Math.max] and [Math.min] on finite arguments. *)
Definition Math_max (a b : Q) : Q := Qmax a b.

End Js.

(* ------------------------------------------------------------------ *)
(** ** Decoded visual assets *)

(** What a rejected promise or a thrown exception carries. *)
Inductive Err : Type :=
| DOMException (name : string)
| TypeError (message : string).

(** An [HTMLImageElement] that is not in a document: its [width] and
    [height] are the intrinsic size, [0] when nothing was decoded. *)
Record HTMLImageElement : Type := mkImage {
  img_src : string;
  img_width : N;
  img_height : N
}.

(** An [HTMLVideoElement]: intrinsic size, [duration], and what [play()]
    settles with ([None]: it resolves). *)
Record HTMLVideoElement : Type := mkVideo {
  vid_src : string;
  videoWidth : N;
  videoHeight : N;
  vid_duration : Js.num;
  vid_play : option Err
}.

(** [type VisualAsset = HTMLImageElement | HTMLVideoElement]. *)
Inductive VisualAsset : Type :=
| AImage (img : HTMLImageElement)
| AVideo (vid : HTMLVideoElement).

(** [asset instanceof HTMLVideoElement]. *)
Definition isVideoElement (asset : VisualAsset) : bool :=
  match asset with AVideo _ => true | AImage _ => false end.

(* ------------------------------------------------------------------ *)
(** ** The 2D canvas, as the list of drawing calls it received *)

Inductive FillStyle : Type :=
| Black                      (* '#000' *)
| Rgba000 (alpha : Q)        (* `rgba(0,0,0,${alpha})` *)
| BlackShadowed (blur offsetX : Q)
| DarkGradient (y0 y1 : Q).

Inductive CanvasOp : Type :=
| ClearRect (x y w h : Q)
| FillRect (style : FillStyle) (x y w h : Q)
| DrawImage (asset : VisualAsset) (x y w h : Js.num)
| Save
| Restore
| Translate (dx dy : Q)
| GlobalAlpha (alpha : Q)
| FillText (line : option string) (x y : Q).

Definition Canvas : Type := list CanvasOp.

(** The source rectangle computed by [drawAsset]. *)
Record Rect : Type := mkRect {
  rx : Js.num; ry : Js.num; rw : Js.num; rh : Js.num
}.

Definition assetW (asset : VisualAsset) : N :=
  match asset with
  | AVideo v => videoWidth v
  | AImage i => img_width i
  end.

Definition assetH (asset : VisualAsset) : N :=
  match asset with
  | AVideo v => videoHeight v
  | AImage i => img_height i
  end.

(** Lines 367-385 of [drawAsset]: cover fit, scale, centre. *)
Definition coverFit (aW aH : N) (w h scale : Q) : Rect :=
  let assetRatio := Js.div (Js.ofN aW) (Js.ofN aH) in
  let canvasRatio := Js.div (Js.Fin w) (Js.Fin h) in
  let '(renderW, renderH) :=
    if Js.gt assetRatio canvasRatio
    then (Js.mul (Js.Fin h) assetRatio, Js.Fin h)
    else (Js.Fin w, Js.div (Js.Fin w) assetRatio) in
  let renderW := Js.mul renderW (Js.Fin scale) in
  let renderH := Js.mul renderH (Js.Fin scale) in
  let x := Js.div (Js.sub (Js.Fin w) renderW) (Js.Fin 2) in
  let y := Js.div (Js.sub (Js.Fin h) renderH) (Js.Fin 2) in
  mkRect x y renderW renderH.

Definition drawAsset (ctx : Canvas) (asset : VisualAsset) (w h scale : Q)
  : Canvas :=
  if (assetW asset =? 0)%N || (assetH asset =? 0)%N then ctx
  else
    let r := coverFit (assetW asset) (assetH asset) w h scale in
    ctx ++ [DrawImage asset (rx r) (ry r) (rw r) (rh r)].

(** Output resolution: 720x1280 for '9:16', 1280x720 otherwise. *)
Definition width (isVertical : bool) : Q := if isVertical then 720 else 1280.
Definition height (isVertical : bool) : Q := if isVertical then 1280 else 720.

(* ------------------------------------------------------------------ *)
(** ** Stories *)

Inductive AspectRatio : Type := Wide16x9 | Tall9x16.

Record AudioBuffer : Type := mkAudioBuffer { duration : Q }.

(** A [Scene], with the fields the exporter reads.  [None] is
    [undefined]. *)
Record Scene : Type := mkScene {
  narration : string;
  imageData : option string;
  videoUrl : option string;
  audioData : option (list N);
  transitionVideoUrl : option string
}.

Record Story : Type := mkStory {
  aspectRatio : AspectRatio;
  scenes : list Scene;
  coverImage : option string
}.

(** Truthiness of an optional string: [undefined] and [''] are falsy. *)
Definition truthyStr (o : option string) : bool :=
  match o with
  | None => false
  | Some s => negb (String.eqb s "")
  end.

(** [a || b] on optional strings. *)
Definition orStr (a b : option string) : option string :=
  if truthyStr a then a else b.

(** Template interpolation of a possibly undefined string. *)
Definition interpolate (o : option string) : string :=
  match o with Some s => s | None => "undefined" end.

(* ------------------------------------------------------------------ *)
(** ** The host: what the browser answers *)

(** Which of the three callbacks of [loadVideo] fires first. *)
Inductive VideoLoad : Type :=
| LoadedData (vid : HTMLVideoElement)
| LoadError
| Timeout5s.

(** Which of the two callbacks of [loadImage] fires, with the decoded
    size. *)
Inductive ImageLoad : Type :=
| ImageLoaded (w h : N)
| ImageError.

Record Browser : Type := mkBrowser {
  (** [MediaRecorder.isTypeSupported]. *)
  isTypeSupported : string -> bool;
  (** Outcome of assigning [vid.src]. *)
  videoLoad : string -> VideoLoad;
  (** Outcome of assigning [img.src]. *)
  imageLoad : string -> ImageLoad;
  (** [decodeAudioData] of [./audioUtils]; [inl] is a rejection. *)
  decodeAudioData : list N -> Err + AudioBuffer;
  (** [ctx.measureText(s).width] under the font of the given size. *)
  measureText : Q -> string -> Q;
  (** [Math.sin]. *)
  Math_sin : Q -> Q;
  (** What [audioCtx.resume()] settles with when the context is
      suspended ([None]: the context is running, or it resolves). *)
  resume : option Err
}.

Definition loadVideo (env : Browser) (url : string)
  : option HTMLVideoElement :=
  match videoLoad env url with
  | LoadedData vid => Some vid
  | LoadError => None
  | Timeout5s => None
  end.

Definition loadImage (env : Browser) (b64 : option string)
  : HTMLImageElement :=
  let src := ("data:image/png;base64," ++ interpolate b64)%string in
  match imageLoad env src with
  | ImageLoaded w h => mkImage src w h
  | ImageError => mkImage src 0 0
  end.

(** The cover is loaded inline, as a JPEG data URL. *)
Definition loadCover (env : Browser) (coverB64 : string)
  : HTMLImageElement :=
  let src := ("data:image/jpeg;base64," ++ coverB64)%string in
  match imageLoad env src with
  | ImageLoaded w h => mkImage src w h
  | ImageError => mkImage src 0 0
  end.

(* ------------------------------------------------------------------ *)
(** ** Encoder selection (lines 40-54) *)

Definition mp4_h264_aac : string := "video/mp4; codecs=avc1,mp4a.40.2".
Definition mp4_generic : string := "video/mp4".
Definition webm_vp9 : string := "video/webm; codecs=vp9".
Definition webm_generic : string := "video/webm".

Definition selectMimeType (env : Browser) : string :=
  if isTypeSupported env mp4_h264_aac then mp4_h264_aac
  else if isTypeSupported env mp4_generic then mp4_generic
  else if isTypeSupported env webm_vp9 then webm_vp9
  else webm_generic.

Record MediaRecorderOptions : Type := mkOptions {
  mimeType : string;
  videoBitsPerSecond : Z
}.

Definition recorderOptions (env : Browser) : MediaRecorderOptions :=
  mkOptions (selectMimeType env) 8000000.

(** The preference order in the words of the specification: MP4 with
    H.264 and AAC, generic MP4, WebM with VP9; generic WebM is the
    terminal fallback, assumed available. *)
Definition codecPreference : list string :=
  [mp4_h264_aac; mp4_generic; webm_vp9].

Definition firstSupported (supported : string -> bool) : string :=
  match find supported codecPreference with
  | Some m => m
  | None => webm_generic
  end.

(** [s.split(';')[0]]. *)
Fixpoint beforeSemicolon (s : string) : string :=
  match s with
  | EmptyString => EmptyString
  | String c rest =>
      if Ascii.eqb c ";"%char then EmptyString
      else String c (beforeSemicolon rest)
  end.

(* ------------------------------------------------------------------ *)
(** ** Durations (lines 114, 169, 232, 248, 285) *)

Definition introDuration : Q := 3.0.
Definition transitionDuration : Q := 1.0.
Definition fadeDuration : Q := 1.5.

(** Line 169. *)
Definition sceneDuration (audioBuffer : option AudioBuffer) : Q :=
  Js.Math_max
    (match audioBuffer with Some b => duration b | None => 3.0 end) 2.0.

(** Lines 159-166: the buffer is decoded when the scene carries audio
    bytes; a rejection is logged and leaves [null]. *)
Definition prepareAudio (env : Browser) (scene : Scene)
  : option AudioBuffer :=
  match audioData scene with
  | Some bytes =>
      match decodeAudioData env bytes with
      | inr buf => Some buf
      | inl _ => None
      end
  | None => None
  end.

(** Line 232. *)
Definition tDuration (transitionVideo : HTMLVideoElement) : Js.num :=
  Js.or (vid_duration transitionVideo) (Js.Fin 2.0).

(* ------------------------------------------------------------------ *)
(** ** Subtitles (lines 428-482) *)

(** [text.split('')]: one one-character string per code unit.  The
    strings of this development are sequences of 8-bit characters, each
    standing for one code unit of the source string. *)
Definition split_chars (text : string) : list string :=
  map (fun c => String c EmptyString) (list_ascii_of_string text).

(** [a < b] on finite numbers. *)
Definition Qlt_bool (a b : Q) : bool := negb (Qle_bool b a).

(** The loop of lines 443-452, from index 1 on. *)
Fixpoint wrapLoop (measure : string -> Q) (maxWidth : Q)
  (words : list string) (lines : list string) (currentLine : string)
  : list string * string :=
  match words with
  | [] => (lines, currentLine)
  | word :: rest =>
      let width := measure (currentLine ++ word)%string in
      if Qlt_bool width maxWidth
      then wrapLoop measure maxWidth rest lines (currentLine ++ word)%string
      else wrapLoop measure maxWidth rest (lines ++ [currentLine]) word
  end.

(** Lines 439-453.  [words[0]] of an empty text is [undefined], which
    is then the only line. *)
Definition wrapLines (measure : string -> Q) (maxWidth : Q) (text : string)
  : list (option string) :=
  match split_chars text with
  | [] => [None]
  | first :: rest =>
      let '(lines, currentLine) :=
        wrapLoop measure maxWidth rest [] first in
      map Some (lines ++ [currentLine])
  end.

Definition padding : Q := 24.

Definition fontSize (w h : Q) : Q := if Qlt_bool w h then 40 else 36.

Definition bottomMargin (w h : Q) : Q := if Qlt_bool w h then 150 else 60.

Definition maxWidth (w : Q) : Q := w - padding * 4.

Definition subtitleLines (env : Browser) (text : string) (w h : Q)
  : list (option string) :=
  wrapLines (measureText env (fontSize w h)) (maxWidth w) text.


Fixpoint fillLines (lines : list (option string)) (w h lineHeight : Q)
  (total : nat) (index : nat) : Canvas :=
  match lines with
  | [] => []
  | line :: rest =>
      let y := h - bottomMargin w h - padding
               - inject_Z (Z.of_nat (total - 1 - index)) * lineHeight in
      FillText line (w / 2) y
        :: fillLines rest w h lineHeight total (S index)
  end.

Definition drawSubtitles (env : Browser) (ctx : Canvas) (text : string)
  (w h opacity : Q) : Canvas :=
  let lines := subtitleLines env text w h in
  let lineHeight := fontSize w h * 1.4 in
  let totalTextHeight := inject_Z (Z.of_nat (List.length lines)) * lineHeight in
  let bgHeight := totalTextHeight + padding * 2 in
  let bgY := h - bgHeight - bottomMargin w h in
  ctx ++ [Save; GlobalAlpha opacity;
          FillRect (DarkGradient bgY (h - bottomMargin w h))
            0 (h - bgHeight - bottomMargin w h - 20) w (bgHeight + 40)]
      ++ fillLines lines w h lineHeight (List.length lines) 0
      ++ [Restore].

(* ------------------------------------------------------------------ *)
(** ** Frame compositor: the bodies of the render loops *)

(** Lines 123-139: one frame of the cover intro. *)
Definition introFrame (ctx : Canvas) (coverAsset : HTMLImageElement)
  (w h elapsed : Q) : Canvas :=
  let progress := elapsed / introDuration in
  let ctx := ctx ++ [ClearRect 0 0 w h] in
  let scale := 1.0 + progress * 0.05 in
  let ctx := drawAsset ctx (AImage coverAsset) w h scale in
  let opacity := 1 in
  let opacity := if Qlt_bool elapsed 0.5 then elapsed / 0.5 else opacity in
  let opacity :=
    if Qlt_bool (introDuration - 0.5) elapsed
    then (introDuration - elapsed) / 0.5 else opacity in
  if Qlt_bool opacity 1
  then ctx ++ [FillRect (Rgba000 (1 - opacity)) 0 0 w h]
  else ctx.

(** Lines 205-210: the Ken Burns scale of scene [i] at [progress]. *)
Definition currentScale (i : nat) (progress : Q) : Q :=
  let zoomDirection := if Nat.eqb (i mod 2) 0 then 1%Z else (-1)%Z in
  let scaleBase := 1.1 in
  let scaleVar := 0.15 in
  if Z.eqb zoomDirection 1
  then scaleBase + scaleVar * progress
  else (scaleBase + scaleVar) - scaleVar * progress.




(** Line 243: one frame of a transition played from its clip. *)
Definition clipTransitionFrame (ctx : Canvas)
  (transitionVideo : HTMLVideoElement) (w h : Q) : Canvas :=
  drawAsset ctx (AVideo transitionVideo) w h 1.0.

(** Lines 265-267. *)
Definition easeInOutCubic (tProgress : Q) : Q :=
  if Qlt_bool tProgress 0.5
  then 4 * tProgress * tProgress * tProgress
  else 1 - ((-2 * tProgress + 2) * (-2 * tProgress + 2)
            * (-2 * tProgress + 2)) / 2.

(** Lines 391-425. *)
Definition drawCinematicTransition (ctx : Canvas)
  (assetA assetB : VisualAsset) (w h progress : Q) : Canvas :=
  let ctx := ctx ++ [ClearRect 0 0 w h] in
  let offsetX := w * progress in
  let ctx := ctx ++ [Save; Translate (- offsetX) 0] in
  let scaleA := if isVideoElement assetA then 1.0 else 1.25 in
  let ctx := drawAsset ctx assetA w h scaleA in
  let ctx := ctx ++ [FillRect (Rgba000 (progress * 0.5)) 0 0 w h; Restore] in
  let ctx := ctx ++ [Save; Translate (w - offsetX) 0] in
  let scaleB := if isVideoElement assetB then 1.0 else 1.1 in
  let ctx := drawAsset ctx assetB w h scaleB in
  ctx ++ [FillRect (BlackShadowed 50 (-20)) (-5) 0 5 h; Restore].

(** Lines 260-269: one frame of the synthesized transition. *)
Definition synthTransitionFrame (ctx : Canvas)
  (currentAsset nextAsset : VisualAsset) (w h tElapsed : Q) : Canvas :=
  let tProgress := tElapsed / transitionDuration in
  drawCinematicTransition ctx currentAsset nextAsset w h
    (easeInOutCubic tProgress).

(** The [scale] argument of the [drawAsset] call of an outro frame
    (lines 295-299). *)
Definition outroScale (lastAsset : VisualAsset) (progress : Q) : Q :=
  if isVideoElement lastAsset then 1.0
  else 1.25 + progress * 0.05.

(** Lines 291-302: one frame of the outro. *)
Definition outroFrame (ctx : Canvas) (lastAsset : VisualAsset)
  (w h tElapsed : Q) : Canvas :=
  let progress := tElapsed / fadeDuration in
  let ctx := drawAsset ctx lastAsset w h (outroScale lastAsset progress) in
  ctx ++ [FillRect (Rgba000 progress) 0 0 w h].

(** Lines 307-309: what follows the outro loop, and for how many
    milliseconds. *)
Definition blackHoldFrame (ctx : Canvas) (w h : Q) : Canvas :=
  ctx ++ [FillRect Black 0 0 w h].

Definition blackHoldMs : Q := 500.
Definition blackPauseMs : Q := 300.

(** How a transition between scene [i] and the next is rendered
    (lines 229-273). *)
Inductive TransitionMode : Type :=
| NoTransition
| ClipMode (clip : HTMLVideoElement) (d : Js.num)
| SynthMode (d : Q).

Definition transitionMode (nextAsset : option VisualAsset)
  (transitionVideo : option HTMLVideoElement) : TransitionMode :=
  match nextAsset with
  | Some _ =>
      match transitionVideo with
      | Some clip => ClipMode clip (tDuration clip)
      | None => SynthMode transitionDuration
      end
  | None => NoTransition
  end.

(** The frame a transition draws at [tElapsed]. *)
Definition transitionFrame (ctx : Canvas) (mode : TransitionMode)
  (currentAsset nextAsset : VisualAsset) (w h tElapsed : Q) : Canvas :=
  match mode with
  | NoTransition => ctx
  | ClipMode clip _ => clipTransitionFrame ctx clip w h
  | SynthMode _ => synthTransitionFrame ctx currentAsset nextAsset w h tElapsed
  end.

(* ------------------------------------------------------------------ *)
(** ** Asset loading (lines 84-105) *)

Definition loadSceneVisual (env : Browser) (scene : Scene) : VisualAsset :=
  if truthyStr (videoUrl scene) then
    match loadVideo env (interpolate (videoUrl scene)) with
    | Some vid => AVideo vid
    | None => AImage (loadImage env (imageData scene))
    end
  else AImage (loadImage env (imageData scene)).

Definition loadSceneTransition (env : Browser) (scene : Scene)
  : option HTMLVideoElement :=
  if truthyStr (transitionVideoUrl scene)
  then loadVideo env (interpolate (transitionVideoUrl scene))
  else None.

(* ------------------------------------------------------------------ *)
(** ** The export run: state, exceptions, and the pipeline *)

Inductive RecorderState : Type := RecInactive | RecRecording.
Inductive AudioContextState : Type := AudioRunning | AudioClosed.

(** The phase label passed to [onProgress] next to the percentage. *)
Inductive Status : Type :=
| LoadingCover
| LoadingAsset (n : nat)
| RecordingScene (n : nat)
| Finishing.

(** One render loop that ran: what it showed and for how long. *)
Inductive Segment : Type :=
| Intro (cover : HTMLImageElement) (d : Q)
| BlackPause (ms : Q)
| SceneSegment (i : nat) (asset : VisualAsset) (d : Q)
| TransitionSegment (i : nat) (mode : TransitionMode)
| Outro (asset : VisualAsset) (d : Q)
| BlackHold (ms : Q).

Record World : Type := mkWorld {
  recorder : RecorderState;
  audioCtx : AudioContextState;
  (** The calls [onProgress] received, oldest first. *)
  progressLog : list (Q * Status);
  (** The errors written by [console.error], oldest first. *)
  console : list Err;
  (** What was pushed to the recorder's stream, oldest first. *)
  rendered : list Segment
}.

Definition initialWorld : World :=
  mkWorld RecInactive AudioRunning [] [] [].

(** A step ends normally, throws, or never ends. *)
Inductive Outcome (A : Type) : Type :=
| Normal (a : A)
| Thrown (e : Err)
| Hung.
Arguments Normal {A} a.
Arguments Thrown {A} e.
Arguments Hung {A}.

Definition M (A : Type) : Type := World -> Outcome A * World.

Definition ret {A : Type} (a : A) : M A := fun w => (Normal a, w).

Definition bind {A B : Type} (c : M A) (k : A -> M B) : M B :=
  fun w =>
    match c w with
    | (Normal a, w') => k a w'
    | (Thrown e, w') => (Thrown e, w')
    | (Hung, w') => (Hung, w')
    end.

Definition throw {A : Type} (e : Err) : M A := fun w => (Thrown e, w).

Definition hang {A : Type} : M A := fun w => (Hung, w).

Declare Scope run_scope.
Delimit Scope run_scope with run.
Notation "x <- c ;; k" := (bind c (fun x => k))
  (at level 61, c at next level, right associativity) : run_scope.
Notation "c ;; k" := (bind c (fun _ => k))
  (at level 61, right associativity) : run_scope.
Local Open Scope run_scope.

(** [try { body } catch (err) { handler err } finally { final }]. *)
Definition try_catch_finally {A : Type} (body : M A) (handler : Err -> M A)
  (final : M unit) : M A :=
  fun w =>
    let '(r, w1) :=
      match body w with
      | (Thrown e, w') => handler e w'
      | other => other
      end in
    match r with
    | Hung => (Hung, w1)
    | _ =>
        match final w1 with
        | (Normal _, w2) => (r, w2)
        | (Thrown e, w2) => (Thrown e, w2)
        | (Hung, w2) => (Hung, w2)
        end
    end.

Definition onProgress (progress : Q) (status : Status) : M unit :=
  fun w =>
    (Normal tt,
     mkWorld (recorder w) (audioCtx w)
       (progressLog w ++ [(progress, status)]) (console w) (rendered w)).

Definition console_error (e : Err) : M unit :=
  fun w =>
    (Normal tt,
     mkWorld (recorder w) (audioCtx w) (progressLog w)
       (console w ++ [e]) (rendered w)).

Definition recorder_start : M unit :=
  fun w =>
    (Normal tt,
     mkWorld RecRecording (audioCtx w) (progressLog w) (console w)
       (rendered w)).

Definition recorder_stop : M unit :=
  fun w =>
    (Normal tt,
     mkWorld RecInactive (audioCtx w) (progressLog w) (console w)
       (rendered w)).

Definition audioCtx_close : M unit :=
  fun w =>
    (Normal tt,
     mkWorld (recorder w) AudioClosed (progressLog w) (console w)
       (rendered w)).

(** A render loop ran to its end: its segment is in the stream. *)
Definition render (seg : Segment) : M unit :=
  fun w =>
    (Normal tt,
     mkWorld (recorder w) (audioCtx w) (progressLog w) (console w)
       (rendered w ++ [seg])).

(** [await vid.play()]. *)
Definition play (vid : HTMLVideoElement) : M unit :=
  match vid_play vid with
  | Some e => throw e
  | None => ret tt
  end.

(** [await audioCtx.resume()] when the context is suspended. *)
Definition resumeAudio (env : Browser) : M unit :=
  match resume env with
  | Some e => throw e
  | None => ret tt
  end.

(** Whether [tElapsed >= d] becomes true as the clock advances. *)
Definition loopExits (d : Js.num) : bool :=
  match d with
  | Js.NaN | Js.PosInf => false
  | _ => true
  end.

(** [story.scenes.length] as a number. *)
Definition count (scenes : list Scene) : Q :=
  inject_Z (Z.of_nat (List.length scenes)).

Definition ofNat (i : nat) : Q := inject_Z (Z.of_nat i).

(** The loop of lines 82-106, from index [i] on. *)
Fixpoint preloadLoop (env : Browser) (total : Q) (i : nat)
  (rest : list Scene) (visualAssets : list VisualAsset)
  (transitionAssets : list (option HTMLVideoElement))
  : M (list VisualAsset * list (option HTMLVideoElement)) :=
  match rest with
  | [] => ret (visualAssets, transitionAssets)
  | scene :: rest' =>
      onProgress ((ofNat i / total) * 20) (LoadingAsset (i + 1)) ;;
      preloadLoop env total (S i) rest'
        (visualAssets ++ [loadSceneVisual env scene])
        (transitionAssets ++ [loadSceneTransition env scene])
  end.

(** Lines 229-279: the transition after scene [i]. *)
Definition runTransition (i : nat) (nextAsset : option VisualAsset)
  (transitionVideo : option HTMLVideoElement) : M unit :=
  match transitionMode nextAsset transitionVideo with
  | NoTransition => ret tt
  | ClipMode clip d =>
      play clip ;;
      if loopExits d then render (TransitionSegment i (ClipMode clip d))
      else hang
  | SynthMode d => render (TransitionSegment i (SynthMode d))
  end.

(** Lines 151-279: iteration [i] of the main loop. *)
Definition sceneIteration (env : Browser) (total : Q)
  (visualAssets : list VisualAsset)
  (transitionAssets : list (option HTMLVideoElement))
  (i : nat) (scene : Scene) : M unit :=
  let currentAsset := nth_error visualAssets i in
  let nextAsset := nth_error visualAssets (i + 1) in
  let transitionVideo :=
    match nth_error transitionAssets i with
    | Some t => t
    | None => None
    end in
  onProgress (20 + (ofNat i / total) * 70) (RecordingScene (i + 1)) ;;
  (match audioData scene with
   | Some bytes =>
       match decodeAudioData env bytes with
       | inl e => console_error e
       | inr _ => ret tt
       end
   | None => ret tt
   end) ;;
  let duration := sceneDuration (prepareAudio env scene) in
  match currentAsset with
  | None => throw (TypeError "Cannot read properties of undefined")
  | Some asset =>
      (match asset with
       | AVideo vid => play vid
       | AImage _ => ret tt
       end) ;;
      render (SceneSegment i asset duration) ;;
      runTransition i nextAsset transitionVideo
  end.

(** The loop of lines 150-280, from index [i] on. *)
Fixpoint mainLoop (env : Browser) (total : Q)
  (visualAssets : list VisualAsset)
  (transitionAssets : list (option HTMLVideoElement))
  (i : nat) (rest : list Scene) : M unit :=
  match rest with
  | [] => ret tt
  | scene :: rest' =>
      sceneIteration env total visualAssets transitionAssets i scene ;;
      mainLoop env total visualAssets transitionAssets (S i) rest'
  end.

(** Lines 282-309. *)
Definition outro (visualAssets : list VisualAsset) : M unit :=
  onProgress 99 Finishing ;;
  match nth_error visualAssets (List.length visualAssets - 1) with
  | None => throw (TypeError "Cannot read properties of undefined")
  | Some lastAsset =>
      render (Outro lastAsset fadeDuration) ;;
      render (BlackHold blackHoldMs)
  end.

(** Lines 63-309: the body of the [try]. *)
Definition pipeline (env : Browser) (story : Story)
  (customCover : option string) : M unit :=
  let coverB64 := orStr customCover (coverImage story) in
  coverAsset <-
    (if truthyStr coverB64
     then onProgress 0 LoadingCover ;;
          ret (Some (loadCover env (interpolate coverB64)))
     else ret None) ;;
  assets <- preloadLoop env (count (scenes story)) 0 (scenes story) [] [] ;;
  let '(visualAssets, transitionAssets) := assets in
  resumeAudio env ;;
  (match coverAsset with
   | Some cover =>
       render (Intro cover introDuration) ;; render (BlackPause blackPauseMs)
   | None => ret tt
   end) ;;
  mainLoop env (count (scenes story)) visualAssets transitionAssets 0
    (scenes story) ;;
  outro visualAssets.

Record Blob : Type := mkBlob {
  blob_type : string;
  blob_parts : list Segment
}.

(** The promise [generateStoryVideo] returns, once settled (or not). *)
Inductive Promise : Type :=
| Resolved (blob : Blob)
| Rejected (e : Err)
| Pending.

(** Lines 311-317: the handler and the cleanup. *)
Definition catchHandler (err : Err) : M unit :=
  console_error err ;; throw err.

Definition cleanup : M unit :=
  recorder_stop ;; audioCtx_close.

Definition generateStoryVideo (env : Browser) (story : Story)
  (customCover : option string) (w : World) : Promise * World :=
  let options := recorderOptions env in
  let run :=
    recorder_start ;;
    try_catch_finally (pipeline env story customCover) catchHandler cleanup in
  match run w with
  | (Normal _, w') =>
      (Resolved (mkBlob (beforeSemicolon (mimeType options)) (rendered w')),
       w')
  | (Thrown e, w') => (Rejected e, w')
  | (Hung, w') => (Pending, w')
  end.

(* ------------------------------------------------------------------ *)
(** ** The tables and the reports of a run, in closed form *)

(** What the asset loop leaves in [visualAssets] and in
    [transitionAssets]. *)
Definition visualAssetsOf (env : Browser) (scenes : list Scene)
  : list VisualAsset :=
  map (loadSceneVisual env) scenes.

Definition transitionAssetsOf (env : Browser) (scenes : list Scene)
  : list (option HTMLVideoElement) :=
  map (loadSceneTransition env) scenes.

(** The transition the main loop runs after scene [i]. *)
Definition transitionAfter (env : Browser) (story : Story) (i : nat)
  : TransitionMode :=
  transitionMode
    (nth_error (visualAssetsOf env (scenes story)) (i + 1))
    (match nth_error (transitionAssetsOf env (scenes story)) i with
     | Some t => t
     | None => None
     end).

(** The percentages of a whole run in the words of the specification:
    the cover report when there is a cover, the asset-loading reports
    [i / N * 20], the main-loop reports [20 + i / N * 70], then 99. *)
Definition loadingReports (n : nat) : list Q :=
  map (fun i => ofNat i / ofNat n * 20) (seq 0 n).

Definition recordingReports (n : nat) : list Q :=
  map (fun i => 20 + ofNat i / ofNat n * 70) (seq 0 n).

Definition fullReports (cover : bool) (n : nat) : list Q :=
  (if cover then [0] else []) ++ loadingReports n ++ recordingReports n
  ++ [99].

(** The percentages [onProgress] received. *)
Definition percents (w : World) : list Q := map fst (progressLog w).

(** Whether the export shows a cover. *)
Definition hasCover (story : Story) (customCover : option string) : bool :=
  truthyStr (orStr customCover (coverImage story)).

(** [lines.join('')] for lines that are all strings. *)
Definition concatLines (lines : list string) : string :=
  fold_right String.append EmptyString lines.


(** A step reports exactly the percentages [full], in order, when it
    ends normally, and a prefix of them when it throws or never ends. *)
Definition emits {A : Type} (c : M A) (full : list Q) : Prop :=
  forall w,
  exists k : nat,
    (k <= List.length full)%nat
    /\ percents (snd (c w)) = percents w ++ firstn k full
    /\ (forall a, fst (c w) = Normal a -> k = List.length full).

(** The world once the recorder was started, and once the cleanup of
    the [finally] block ran. *)
Definition started (w : World) : World :=
  mkWorld RecRecording (audioCtx w) (progressLog w) (console w) (rendered w).

Definition cleaned (w : World) : World :=
  mkWorld RecInactive AudioClosed (progressLog w) (console w) (rendered w).

Definition logged (e : Err) (w : World) : World :=
  mkWorld (recorder w) (audioCtx w) (progressLog w) (console w ++ [e])
    (rendered w).

(* ------------------------------------------------------------------ *)
(** ** Sample inputs *)

Definition clipA : HTMLVideoElement :=
  mkVideo "a.mp4" 1280 720 (Js.Fin 0.4) None.

Definition clipZero : HTMLVideoElement :=
  mkVideo "zero.mp4" 1280 720 (Js.Fin 0) None.

Definition clipBlocked : HTMLVideoElement :=
  mkVideo "blocked.mp4" 1280 720 (Js.Fin 4)
    (Some (DOMException "NotAllowedError")).

(** A host that supports no MP4, loads three named clips and times out
    on every other one, decodes every image as 1024x1024 and every audio
    buffer to as many seconds as it has bytes, and whose font gives
    every character the width of the font size. *)
Definition sampleBrowser : Browser :=
  mkBrowser
    (fun m => String.eqb m webm_vp9)
    (fun url =>
       if String.eqb url "a.mp4" then LoadedData clipA
       else if String.eqb url "zero.mp4" then LoadedData clipZero
       else if String.eqb url "blocked.mp4" then LoadedData clipBlocked
       else Timeout5s)
    (fun _ => ImageLoaded 1024 1024)
    (fun bytes => inr (mkAudioBuffer (inject_Z (Z.of_nat (List.length bytes)))))
    (fun size s => size * inject_Z (Z.of_nat (String.length s)))
    (fun _ => 0)
    None.



Definition imageScene (text : string) (transition : option string) : Scene :=
  mkScene text (Some "iVBORw0KGgo="%string) None None transition.

Definition videoScene (text url : string) : Scene :=
  mkScene text (Some "iVBORw0KGgo="%string) (Some url) None None.

(** Two image scenes; the first names a transition clip that loads. *)
Definition storyWithClip : Story :=
  mkStory Wide16x9
    [imageScene "one" (Some "a.mp4"%string); imageScene "two" None] None.

(** Two image scenes; the first names a transition clip that times
    out. *)
Definition storyWithSlowClip : Story :=
  mkStory Wide16x9
    [imageScene "one" (Some "slow.mp4"%string); imageScene "two" None] None.

(** Two image scenes; the first names a transition clip whose duration
    is 0. *)
Definition storyWithZeroClip : Story :=
  mkStory Wide16x9
    [imageScene "one" (Some "zero.mp4"%string); imageScene "two" None] None.

(** An image scene, then a video scene whose [play()] is rejected. *)
Definition storyWithBlockedVideo : Story :=
  mkStory Wide16x9
    [imageScene "one" None; videoScene "two" "blocked.mp4"] None.

(* ------------------------------------------------------------------ *)
(** ** The timeline of a run, in closed form *)

(** A step pushes exactly the segments [full], in order, when it ends
    normally, and a prefix of them when it throws or never ends. *)
Definition records {A : Type} (c : M A) (full : list Segment) : Prop :=
  forall w,
  exists k : nat,
    (k <= List.length full)%nat
    /\ rendered (snd (c w)) = rendered w ++ firstn k full
    /\ (forall a, fst (c w) = Normal a -> k = List.length full).

(** A step ends normally, with a value that satisfies [P], exactly when
    [b] holds; its outcome does not depend on the world. *)
Definition completes {A : Type} (c : M A) (b : bool) (P : A -> Prop)
  : Prop :=
  forall w,
    if b then exists a, fst (c w) = Normal a /\ P a
    else forall a, fst (c w) <> Normal a.

(** The elements of a list with their indices, from [start]. *)
Definition indexed {A : Type} (start : nat) (l : list A) : list (nat * A) :=
  combine (seq start (List.length l)) l.

Definition transitionSegments (i : nat) (mode : TransitionMode)
  : list Segment :=
  match mode with
  | NoTransition => []
  | _ => [TransitionSegment i mode]
  end.

(** The segments of iteration [i] of the main loop. *)
Definition sceneSegments (env : Browser) (story : Story)
  (item : nat * Scene) : list Segment :=
  let '(i, scene) := item in
  SceneSegment i (loadSceneVisual env scene)
    (sceneDuration (prepareAudio env scene))
  :: transitionSegments i (transitionAfter env story i).

Definition introSegments (env : Browser) (story : Story)
  (customCover : option string) : list Segment :=
  if hasCover story customCover
  then [Intro (loadCover env
                 (interpolate (orStr customCover (coverImage story))))
          introDuration;
        BlackPause blackPauseMs]
  else [].

Definition outroSegments (visualAssets : list VisualAsset) : list Segment :=
  match nth_error visualAssets (List.length visualAssets - 1) with
  | Some lastAsset => [Outro lastAsset fadeDuration; BlackHold blackHoldMs]
  | None => []
  end.

(** Everything a completed export pushes to the recorder. *)
Definition timeline (env : Browser) (story : Story)
  (customCover : option string) : list Segment :=
  introSegments env story customCover
  ++ flat_map (sceneSegments env story) (indexed 0 (scenes story))
  ++ outroSegments (visualAssetsOf env (scenes story)).

(** [play()] of a scene's asset resolves (a still image is not
    played). *)
Definition assetPlays (asset : VisualAsset) : bool :=
  match asset with
  | AVideo vid => match vid_play vid with None => true | Some _ => false end
  | AImage _ => true
  end.

(** A transition runs to its end: its clip plays and its loop exits. *)
Definition transitionRuns (mode : TransitionMode) : bool :=
  match mode with
  | ClipMode clip d =>
      match vid_play clip with None => true | Some _ => false end
      && loopExits d
  | _ => true
  end.

Definition sceneRuns (env : Browser) (story : Story) (item : nat * Scene)
  : bool :=
  let '(i, scene) := item in
  assetPlays (loadSceneVisual env scene)
  && transitionRuns (transitionAfter env story i).

(** The stories a host can export to the end. *)
Definition exportable (env : Browser) (story : Story) : bool :=
  match resume env with None => true | Some _ => false end
  && forallb (sceneRuns env story) (indexed 0 (scenes story))
  && negb (Nat.eqb (List.length (scenes story)) 0).

(* ------------------------------------------------------------------ *)
(** ** The caller's download (StoryPlayer.tsx, [handleExportVideo]) *)

(** [s.includes(sub)]. *)
Definition includes (s sub : string) : bool :=
  match String.index 0 sub s with
  | Some _ => true
  | None => false
  end.

(** [blob.type.includes('mp4') ? 'mp4' : 'webm']. *)
Definition downloadExtension (blob : Blob) : string :=
  if includes (blob_type blob) "mp4" then "mp4" else "webm".

(* ------------------------------------------------------------------ *)
(** ** Cover titles ([addTitleToCover]) *)

(** The canvas of the titled cover. *)
Definition coverWidth (ratio : AspectRatio) : Q :=
  match ratio with Tall9x16 => 1080 | Wide16x9 => 1920 end.

Definition coverHeight (ratio : AspectRatio) : Q :=
  match ratio with Tall9x16 => 1920 | Wide16x9 => 1080 end.

Definition titleFontSize (ratio : AspectRatio) : Q :=
  match ratio with Tall9x16 => 110 | Wide16x9 => 130 end.

Definition titleMaxWidth (ratio : AspectRatio) : Q :=
  coverWidth ratio * 0.85.

(** The cover-style fit of [addTitleToCover], which has no guard on the
    image size. *)
Definition titleCoverFit (imgW imgH : N) (width height : Q) : Rect :=
  let imgRatio := Js.div (Js.ofN imgW) (Js.ofN imgH) in
  let canvasRatio := Js.div (Js.Fin width) (Js.Fin height) in
  if Js.gt imgRatio canvasRatio then
    let drawH := Js.Fin height in
    let drawW := Js.mul (Js.Fin height) imgRatio in
    let offsetY := Js.Fin 0 in
    let offsetX := Js.div (Js.sub (Js.Fin width) drawW) (Js.Fin 2) in
    mkRect offsetX offsetY drawW drawH
  else
    let drawW := Js.Fin width in
    let drawH := Js.div (Js.Fin width) imgRatio in
    let offsetX := Js.Fin 0 in
    let offsetY := Js.div (Js.sub (Js.Fin height) drawH) (Js.Fin 2) in
    mkRect offsetX offsetY drawW drawH.

(** The wrapping loop of the title, from index [i] on. *)
Fixpoint titleWrapLoop (measure : string -> Q) (limit : Q)
  (words : list string) (i : nat) (line : string) (lines : list string)
  : list string * string :=
  match words with
  | [] => (lines, line)
  | word :: rest =>
      let testLine := (line ++ word)%string in
      if Qlt_bool limit (measure testLine) && negb (Nat.eqb i 0)
      then titleWrapLoop measure limit rest (S i) word (lines ++ [line])
      else titleWrapLoop measure limit rest (S i) testLine lines
  end.

Definition titleLines (measure : string -> Q) (limit : Q) (title : string)
  : list string :=
  let '(lines, line) :=
    titleWrapLoop measure limit (split_chars title) 0 EmptyString [] in
  lines ++ [line].

(* ------------------------------------------------------------------ *)
(** ** Data URLs *)

(** [\w] of a regular expression without the unicode flag. *)
Definition isWordChar (c : ascii) : bool :=
  let n := nat_of_ascii c in
  ((48 <=? n) && (n <=? 57))%nat
  || ((65 <=? n) && (n <=? 90))%nat
  || ((97 <=? n) && (n <=? 122))%nat
  || (n =? 95)%nat.

(** [s] without a leading [pre], when it has one. *)
Fixpoint afterPrefix (pre s : string) : option string :=
  match pre, s with
  | EmptyString, _ => Some s
  | String a pre', String b s' =>
      if Ascii.eqb a b then afterPrefix pre' s' else None
  | String _ _, EmptyString => None
  end.

(** [s] without its longest leading run of word characters. *)
Fixpoint afterWord (s : string) : string :=
  match s with
  | String c rest => if isWordChar c then afterWord rest else s
  | EmptyString => EmptyString
  end.

(** [s.replace(/^data:image\/\w+;base64,/, "")].  The run [\w+] is
    followed by [;], which is no word character, so only the longest run
    can match. *)
Definition stripDataUrl (s : string) : string :=
  match afterPrefix "data:image/" s with
  | Some rest =>
      let tail := afterWord rest in
      if (String.length tail <? String.length rest)%nat then
        match afterPrefix ";base64," tail with
        | Some payload => payload
        | None => s
        end
      else s
  | None => s
  end.

(** Every character of [s] is a word character. *)
Fixpoint allWordChars (s : string) : bool :=
  match s with
  | String c rest => isWordChar c && allWordChars rest
  | EmptyString => true
  end.

(** Two rectangles with finite, equal coordinates. *)
Definition sameRect (r1 r2 : Rect) : Prop :=
  exists x1 y1 w1 h1 x2 y2 w2 h2 : Q,
    r1 = mkRect (Js.Fin x1) (Js.Fin y1) (Js.Fin w1) (Js.Fin h1)
    /\ r2 = mkRect (Js.Fin x2) (Js.Fin y2) (Js.Fin w2) (Js.Fin h2)
    /\ x1 == x2 /\ y1 == y2 /\ w1 == w2 /\ h1 == h2.

(* ------------------------------------------------------------------ *)
(** ** Recommended topics ([generateRecommendedTopics],
       [handleRefreshTopics]) *)

(** What [JSON.parse] returns. *)
#[local] Unset Elimination Schemes.
Inductive Json : Type :=
| JNull
| JBool (b : bool)
| JNumber (q : Q)
| JString (s : string)
| JArray (items : list Json)
| JObject (fields : list (string * Json)).
#[local] Set Elimination Schemes.

(** The model service, as far as the topic request sees it. *)
Record TopicsHost : Type := mkTopicsHost {
  (** [response.text] of the topic request; [inl] is a rejection. *)
  topicsText : Err + option string;
  (** [JSON.parse]; [inl] is a [SyntaxError]. *)
  JSON_parse : string -> Err + Json
}.

Definition defaultTopics : list Json :=
  [JString "草船借箭"; JString "孔融让梨"; JString "大闹天宫";
   JString "哪吒闹海"].

Definition generateRecommendedTopics (host : TopicsHost) : list Json :=
  match topicsText host with
  | inl _ => defaultTopics
  | inr text =>
      if negb (truthyStr text) then defaultTopics
      else
        match JSON_parse host (interpolate text) with
        | inr (JArray parsed) =>
            if (0 <? List.length parsed)%nat then firstn 4 parsed
            else defaultTopics
        | inr _ => defaultTopics
        | inl _ => defaultTopics
        end
  end.

(** The list the page falls back to (App.tsx). *)
Definition pageTopics : list Json :=
  [JString "三顾茅庐"; JString "郑和下西洋"; JString "长城的故事";
   JString "花木兰"].

(** What [handleRefreshTopics] puts in [recommendedTopics], given how
    the request settled. *)
Definition refreshedTopics (settled : Err + list Json) : list Json :=
  match settled with
  | inr topics =>
      if (0 <? List.length topics)%nat then topics else pageTopics
  | inl _ => pageTopics
  end.

(** The page state that [handleRefreshTopics] reads and writes. *)
Record TopicsState : Type := mkTopicsState {
  recommendedTopics : list Json;
  isTopicsLoading : bool
}.

(** A call returns at once while a refresh is running; otherwise it
    sets the topics and, in its [finally], clears the loading flag. *)
Definition handleRefreshTopics (host : TopicsHost) (page : TopicsState)
  : TopicsState :=
  if isTopicsLoading page then page
  else
    mkTopicsState (refreshedTopics (inr (generateRecommendedTopics host)))
      false.

(** A service that answers with an array of five titles. *)
Definition fiveTopicsHost : TopicsHost :=
  mkTopicsHost (inr (Some "[five titles]"%string))
    (fun _ =>
       inr (JArray [JString "a"; JString "b"; JString "c"; JString "d";
                    JString "e"])).

(* ------------------------------------------------------------------ *)
(** ** Saved stories ([saveStoryToStorage], App.tsx) *)

(** A scene as it is written to storage: without audio and without the
    video URL. *)
Definition storedScene (scene : Scene) : Scene :=
  mkScene (narration scene) (imageData scene) None None
    (transitionVideoUrl scene).

Definition storedStory (story : Story) : Story :=
  mkStory (aspectRatio story) (map storedScene (scenes story))
    (coverImage story).

(** The new list of saved stories, and what goes to [localStorage]. *)
Definition saveStoryToStorage (savedStories : list Story) (story : Story)
  : list Story * list Story :=
  let newSaved := firstn 2 (story :: savedStories) in
  (newSaved, map storedStory newSaved).

(* ------------------------------------------------------------------ *)
(** ** Batch generation of transitions
       ([handleBatchGenerateTransitions], StoryPlayer.tsx) *)

(** [l[i] = x] on an index inside [l]. *)
Fixpoint setAt {A : Type} (l : list A) (i : nat) (x : A) : list A :=
  match l, i with
  | [], _ => []
  | _ :: rest, O => x :: rest
  | y :: rest, S i' => y :: setAt rest i' x
  end.

(** [scene.transitionVideoUrl = url]. *)
Definition withTransition (scene : Scene) (url : string) : Scene :=
  mkScene (narration scene) (imageData scene) (videoUrl scene)
    (audioData scene) (Some url).

(** [scenes[i]?.imageData], pushed when truthy. *)
Definition imageOf (scene : option Scene) : list string :=
  match scene with
  | Some sc =>
      if truthyStr (imageData sc) then [interpolate (imageData sc)] else []
  | None => []
  end.

(** The images sent for the transition after scene [i]. *)
Definition batchImages (scenes : list Scene) (i : nat) : list string :=
  imageOf (nth_error scenes i) ++ imageOf (nth_error scenes (i + 1))
  ++ imageOf (nth_error scenes (i + 2)).

Record BatchRun : Type := mkBatchRun {
  (** The scenes, with the transitions set so far. *)
  batchScenes : list Scene;
  successCount : nat;
  (** The image lists passed to [generateVeoSequence], oldest first. *)
  batchRequests : list (list string);
  (** The seconds spent in the rate-limit wait. *)
  cooldownSeconds : nat
}.

(** Iteration [i] of the loop; [generateVeoSequence] is the imported
    service call, [inl] a rejection. *)
Definition batchStep
  (generateVeoSequence : list string -> AspectRatio -> Err + option string)
  (ratio : AspectRatio) (totalTransitions : nat) (run : BatchRun) (i : nat)
  : BatchRun :=
  match nth_error (batchScenes run) i with
  | None => run
  | Some scene =>
      if truthyStr (transitionVideoUrl scene) then
        mkBatchRun (batchScenes run) (successCount run + 1)
          (batchRequests run) (cooldownSeconds run)
      else
        let images := batchImages (batchScenes run) i in
        if (List.length images <? 2)%nat then run
        else
          let requests := batchRequests run ++ [images] in
          let wait :=
            if (i <? totalTransitions - 1)%nat then 35%nat else 0%nat in
          match generateVeoSequence images ratio with
          | inr url =>
              if truthyStr url then
                mkBatchRun
                  (setAt (batchScenes run) i
                     (withTransition scene (interpolate url)))
                  (successCount run + 1) requests
                  (cooldownSeconds run + wait)
              else
                mkBatchRun (batchScenes run) (successCount run) requests
                  (cooldownSeconds run + wait)
          | inl _ =>
              mkBatchRun (batchScenes run) (successCount run) requests
                (cooldownSeconds run + wait)
          end
  end.

(** The loop over [i = 0 .. totalTransitions - 1]; nothing happens when
    the key check fails. *)
Definition handleBatchGenerateTransitions (ready : bool)
  (generateVeoSequence : list string -> AspectRatio -> Err + option string)
  (story : Story) : option BatchRun :=
  if ready then
    let totalTransitions := (List.length (scenes story) - 1)%nat in
    Some (fold_left
            (batchStep generateVeoSequence (aspectRatio story)
               totalTransitions)
            (seq 0 totalTransitions)
            (mkBatchRun (scenes story) 0 [] 0))
  else None.

(** [successCount === totalTransitions], the test of the final
    message. *)
Definition allTransitionsDone (story : Story) (run : BatchRun) : bool :=
  (Z.of_nat (successCount run)
   =? Z.of_nat (List.length (scenes story)) - 1)%Z.

(** The scenes that have a transition clip. *)
Definition withClip (scenes : list Scene) : list Scene :=
  filter (fun scene => truthyStr (transitionVideoUrl scene)) scenes.

(** What the batch may change of a scene: nothing but an unset
    transition URL. *)
Definition onlyAddsTransition (before after : Scene) : Prop :=
  narration after = narration before
  /\ imageData after = imageData before
  /\ videoUrl after = videoUrl before
  /\ audioData after = audioData before
  /\ (truthyStr (transitionVideoUrl before) = true ->
      transitionVideoUrl after = transitionVideoUrl before).

(* ------------------------------------------------------------------ *)
(** ** Story generation ([handleGenerate], App.tsx) *)

(** A scene of the generated structure. *)
Record SceneOutline : Type := mkOutline {
  outline_id : Z;
  outline_narration : string;
  visual_prompt : string
}.

Record StoryStructure : Type := mkStructure {
  structure_title : string;
  structure_scenes : list SceneOutline
}.

(** The generation services [handleGenerate] awaits; [inl] is a
    rejection. *)
Record Studio : Type := mkStudio {
  generateStoryStructure : string -> AspectRatio -> Err + StoryStructure;
  generateSceneImage : string -> AspectRatio -> Err + string;
  generateVoiceover : string -> string -> Err + list N;
  generateCoverImage : string -> AspectRatio -> nat -> Err + list string;
  addTitleToCover : string -> string -> AspectRatio -> Err + string
}.

(** The closing scene appended to every structure. *)
Definition outroScene (structure : StoryStructure) : SceneOutline :=
  mkOutline (Z.of_nat (List.length (structure_scenes structure)) + 1)
    "如果故事讲的不错，能不能给个一键三连！如果你还想听其他的历史故事，请在评论区留言告诉我们！"
    "cute ending scene, theatrical curtain call, children waving goodbye, warm cozy lighting, detailed background, magical atmosphere".

(** One iteration of the asset loop: a failed image or voice-over
    leaves the field undefined. *)
Definition sceneWithAssets (studio : Studio) (ratio : AspectRatio)
  (selectedVoice : string) (outline : SceneOutline) : Scene :=
  let imageData :=
    match generateSceneImage studio (visual_prompt outline) ratio with
    | inr data => Some data
    | inl _ => None
    end in
  let audioData :=
    match generateVoiceover studio (outline_narration outline)
            selectedVoice with
    | inr data => Some data
    | inl _ => None
    end in
  mkScene (outline_narration outline) imageData None audioData None.

(** Step 3: the cover, titled, or undefined when anything fails. *)
Definition finalCoverImage (studio : Studio) (ratio : AspectRatio)
  (title : string) : option string :=
  match generateCoverImage studio title ratio 1 with
  | inr covers =>
      let rawCover := nth_error covers 0 in
      if truthyStr rawCover then
        match addTitleToCover studio (interpolate rawCover) title ratio with
        | inr cover => Some cover
        | inl _ => None
        end
      else None
  | inl _ => None
  end.

(** The story [handleGenerate] builds for a topic that is not blank, or
    the error it reports. *)
Definition handleGenerate (studio : Studio) (topicInput : string)
  (selectedAspectRatio : AspectRatio) (selectedVoice : string)
  : Err + Story :=
  match generateStoryStructure studio topicInput selectedAspectRatio with
  | inl e => inl e
  | inr structure =>
      let outlines := structure_scenes structure ++ [outroScene structure] in
      let scenesWithAssets :=
        map (sceneWithAssets studio selectedAspectRatio selectedVoice)
          outlines in
      inr (mkStory selectedAspectRatio scenesWithAssets
             (finalCoverImage studio selectedAspectRatio
                (structure_title structure)))
  end.

(** Services that return an empty structure and fail at everything
    else. *)
Definition bareStudio : Studio :=
  mkStudio
    (fun _ _ => inr (mkStructure "t" []))
    (fun _ _ => inl (TypeError "image"))
    (fun _ _ => inl (TypeError "voice"))
    (fun _ _ _ => inl (TypeError "cover"))
    (fun _ _ _ => inl (TypeError "title")).

(* ------------------------------------------------------------------ *)
(** ** Cover images ([generateCoverImage], services/geminiService.ts) *)

Module GeminiService.

(** What a rejected request or a [throw] carries here. *)
Inductive Failure : Type :=
| Rejection (e : Err)
| JsError (message : string).

(** The two image endpoints; [inl] is a rejection. *)
Record ImageService : Type := mkImageService {
  (** [generateImages]: the [image?.imageBytes] of
      [response.generatedImages], [None] when that list is undefined. *)
  generateImages :
    string -> AspectRatio -> nat -> Failure + option (list (option string));
  (** [generateContent] with the image model: the
      [candidates?.[0]?.content?.parts?.[0]?.inlineData?.data] of the
      response. *)
  generateContentImage : string -> Failure + option string
}.

Definition newline : string := String (ascii_of_nat 10) EmptyString.
Definition quote : string := String (ascii_of_nat 34) EmptyString.

Definition ratioText (ratio : AspectRatio) : string :=
  match ratio with Wide16x9 => "16:9" | Tall9x16 => "9:16" end.

Definition orientationDesc (ratio : AspectRatio) : string :=
  match ratio with
  | Wide16x9 => "wide cinematic landscape"
  | Tall9x16 => "vertical mobile wallpaper"
  end.

(** The template of lines 723-730. *)
Definition coverPrompt (topic : string) (ratio : AspectRatio) : string :=
  (newline
   ++ "    Create a high-quality 3D animated illustration for a children's history story about "
   ++ quote ++ topic ++ quote ++ "." ++ newline
   ++ "    Format: " ++ orientationDesc ratio ++ "." ++ newline
   ++ "    Style: High-quality 3D render, cute, vibrant colors, soft lighting, detailed textures, Pixar-style."
   ++ newline
   ++ "    Content: A key character or scene representing "
   ++ quote ++ topic ++ quote ++ ". Magical and engaging." ++ newline
   ++ "    Composition: Clean composition with some negative space for overlay text."
   ++ newline
   ++ "    Crucial Constraint: NO TEXT, NO TITLES, NO WORDS, NO LETTERS in the image. Pure artwork only."
   ++ newline ++ "  ")%string.

(** [.filter(Boolean)] on optional strings. *)
Definition keepTruthy (l : list (option string)) : list string :=
  flat_map (fun o => if truthyStr o then [interpolate o] else []) l.

Definition variations (count : nat) : list string :=
  firstn count
    ["close-up shot"%string; "wide angle shot"%string; "side view"%string;
     "dynamic action shot"%string].

Definition promptsToRun (prompt : string) (ratio : AspectRatio) (count : nat)
  : list string :=
  if Nat.eqb count 1
  then [(prompt ++ ", " ++ ratioText ratio ++ " aspect ratio")%string]
  else map (fun v =>
              (prompt ++ ", " ++ v ++ ", " ++ ratioText ratio
               ++ " aspect ratio")%string)
         (variations count).

(** [Promise.all]: every value, or a rejection.  Which rejection wins
    when several requests fail is a matter of timing; the first in
    request order is taken here. *)
Fixpoint promiseAll {A : Type} (settled : list (Failure + A))
  : Failure + list A :=
  match settled with
  | [] => inr []
  | inl e :: _ => inl e
  | inr a :: rest =>
      match promiseAll rest with
      | inl e => inl e
      | inr values => inr (a :: values)
      end
  end.

(** The [try] block: the primary endpoint. *)
Definition fromImagen (service : ImageService) (prompt : string)
  (ratio : AspectRatio) (count : nat) : Failure + list string :=
  match generateImages service prompt ratio count with
  | inl e => inl e
  | inr (Some generated) =>
      let images := keepTruthy generated in
      if (0 <? List.length images)%nat then inr images
      else inl (JsError "No images generated from Imagen")
  | inr None => inl (JsError "No images generated from Imagen")
  end.

Definition generateCoverImage (service : ImageService) (topic : string)
  (ratio : AspectRatio) (count : nat) : Failure + list string :=
  let prompt := coverPrompt topic ratio in
  match fromImagen service prompt ratio count with
  | inr images => inr images
  | inl e =>
      match promiseAll (map (generateContentImage service)
                          (promptsToRun prompt ratio count)) with
      | inl fallbackError => inl fallbackError
      | inr responses =>
          let images := keepTruthy responses in
          if (0 <? List.length images)%nat then inr images else inl e
      end
  end.

(** The primary endpoint gives no image, and [e] is what the [try]
    block throws: the request's rejection, or the error of line 746 when
    the list is undefined or has no truthy entry. *)
Definition imagenFails (service : ImageService) (prompt : string)
  (ratio : AspectRatio) (count : nat) (e : Failure) : Prop :=
  generateImages service prompt ratio count = inl e
  \/ (e = JsError "No images generated from Imagen"
      /\ (generateImages service prompt ratio count = inr None
          \/ exists generated,
              generateImages service prompt ratio count
              = inr (Some generated)
              /\ keepTruthy generated = [])).

(** A service whose primary endpoint is down and whose fallback
    returns one image per request. *)
Definition fallbackOnlyService : ImageService :=
  mkImageService
    (fun _ _ _ => inl (JsError "quota"))
    (fun _ => inr (Some "aW1hZ2U="%string)).

End GeminiService.

(* ================================================================== *)
(** * Properties *)

(* ------------------------------------------------------------------ *)
(** ** Scene durations *)

Lemma Math_max_cases (a b : Q) :
  (a < b /\ Js.Math_max a b == b) \/ (b <= a /\ Js.Math_max a b == a).
Proof. unfold Js.Math_max. apply Q.max_spec. Qed.

Lemma sceneDuration_floor (audioBuffer : option AudioBuffer) :
  2.0 <= sceneDuration audioBuffer.
Proof. unfold sceneDuration, Js.Math_max. apply Q.le_max_r. Qed.

Lemma sceneDuration_silent : sceneDuration None == 3.0.
Proof. reflexivity. Qed.

(** C1, as stated, fails: a narration of 2.5 s gives a scene of 2.5 s,
    not of [max 2.5 3.0 = 3.0] s. *)
Lemma sceneDuration_not_max_with_three :
  sceneDuration (Some (mkAudioBuffer 2.5)) == 2.5 /\
  ~ sceneDuration (Some (mkAudioBuffer 2.5))
    == Qmax (duration (mkAudioBuffer 2.5)) 3.0.
Proof. split; [reflexivity | discriminate]. Qed.

(** C1 (amended).  The duration of a scene segment is
    [max(audioDuration, 2.0)] when the scene's narration decodes, exactly
    [3.0] when the scene has no audio bytes or they do not decode, and
    is never below [2.0]. *)
Theorem sceneDuration_spec (env : Browser) (scene : Scene) :
  sceneDuration (prepareAudio env scene)
  == match audioData scene with
     | Some bytes =>
         match decodeAudioData env bytes with
         | inr buf => Qmax (duration buf) 2.0
         | inl _ => 3.0
         end
     | None => 3.0
     end
  /\ 2.0 <= sceneDuration (prepareAudio env scene).
Proof.
  split; [| apply sceneDuration_floor].
  unfold prepareAudio.
  destruct (audioData scene) as [bytes |]; [| reflexivity].
  destruct (decodeAudioData env bytes) as [e | buf]; reflexivity.
Qed.

(* ------------------------------------------------------------------ *)
(** ** Ken Burns scale *)

Lemma mod2_even (i : nat) : Nat.eqb (i mod 2) 0 = Nat.even i.
Proof.
  destruct (Nat.even i) eqn:E.
  - apply Nat.even_spec in E. destruct E as [k ->].
    rewrite Nat.mul_comm, Nat.Div0.mod_mul. reflexivity.
  - apply Nat.eqb_neq. intros H.
    apply Nat.Div0.mod_divides in H. destruct H as [k ->].
    rewrite Nat.even_mul in E. discriminate.
Qed.

Lemma currentScale_even (i : nat) (p : Q) :
  Nat.even i = true -> currentScale i p == 1.10 + 0.15 * p.
Proof.
  intros E. unfold currentScale. rewrite mod2_even, E. simpl. lra.
Qed.



(* ------------------------------------------------------------------ *)
(** ** Encoder selection *)

(** C6.  The recorder's MIME type is the first supported entry of the
    order MP4 with H.264 and AAC, generic MP4, WebM with VP9, and
    generic WebM when none of them is supported (its own support is not
    asked); the video bit rate is 8 000 000 bits per second. *)
Theorem recorderOptions_spec (env : Browser) :
  mimeType (recorderOptions env) = firstSupported (isTypeSupported env)
  /\ videoBitsPerSecond (recorderOptions env) = 8000000%Z
  /\ (mimeType (recorderOptions env) = webm_generic
      \/ isTypeSupported env (mimeType (recorderOptions env)) = true).
Proof.
  unfold recorderOptions, selectMimeType, firstSupported, codecPreference.
  simpl.
  split; [| split; [reflexivity |]].
  - destruct (isTypeSupported env mp4_h264_aac); [reflexivity |].
    destruct (isTypeSupported env mp4_generic); [reflexivity |].
    destruct (isTypeSupported env webm_vp9); reflexivity.
  - destruct (isTypeSupported env mp4_h264_aac) eqn:E1; [now right |].
    destruct (isTypeSupported env mp4_generic) eqn:E2; [now right |].
    destruct (isTypeSupported env webm_vp9) eqn:E3; [now right | now left].
Qed.

(* ------------------------------------------------------------------ *)
(** ** Cover fit *)

Lemma ofN_nonzero (n : N) :
  n <> 0%N -> Qeq_bool (inject_Z (Z.of_N n)) 0 = false.
Proof.
  intros H. destruct n as [| p]; [congruence | reflexivity].
Qed.

Lemma ofN_positive (n : N) : n <> 0%N -> 0 < inject_Z (Z.of_N n).
Proof.
  intros H. destruct n as [| p]; [congruence | reflexivity].
Qed.

(** The aspect ratio of an asset with non-zero sides is a finite,
    positive number: its division has a non-zero divisor. *)
Lemma assetRatio_finite (aW aH : N) :
  aW <> 0%N -> aH <> 0%N ->
  Js.div (Js.ofN aW) (Js.ofN aH)
  = Js.Fin (inject_Z (Z.of_N aW) / inject_Z (Z.of_N aH))
  /\ 0 < inject_Z (Z.of_N aW) / inject_Z (Z.of_N aH).
Proof.
  intros Hw Hh. split.
  - unfold Js.div, Js.ofN. now rewrite (ofN_nonzero aH Hh).
  - apply Qlt_shift_div_l; [now apply ofN_positive |].
    rewrite Qmult_0_l. now apply ofN_positive.
Qed.

Lemma Qeq_bool_false_of_pos (r : Q) : 0 < r -> Qeq_bool r 0 = false.
Proof.
  intros H. destruct (Qeq_bool r 0) eqn:E; [| reflexivity].
  apply Qeq_bool_eq in E. lra.
Qed.

(** The rectangle of an asset with non-zero sides is finite and centred
    on the canvas, whatever the canvas size and the scale. *)
Lemma coverFit_finite_centred (aW aH : N) (w h scale : Q) :
  aW <> 0%N -> aH <> 0%N ->
  exists x y renderW renderH : Q,
    coverFit aW aH w h scale
    = mkRect (Js.Fin x) (Js.Fin y) (Js.Fin renderW) (Js.Fin renderH)
    /\ x + renderW / 2 == w / 2
    /\ y + renderH / 2 == h / 2.
Proof.
  intros Hw Hh.
  destruct (assetRatio_finite aW aH Hw Hh) as [Hr Hpos].
  set (r := inject_Z (Z.of_N aW) / inject_Z (Z.of_N aH)) in *.
  unfold coverFit. rewrite Hr.
  destruct (Js.gt (Js.Fin r) (Js.div (Js.Fin w) (Js.Fin h))).
  - exists ((w - h * r * scale) / 2), ((h - h * scale) / 2),
      (h * r * scale), (h * scale).
    simpl. split; [reflexivity | split; field].
  - assert (Hd : Js.div (Js.Fin w) (Js.Fin r) = Js.Fin (w / r)).
    { unfold Js.div. now rewrite (Qeq_bool_false_of_pos r Hpos). }
    rewrite Hd.
    exists ((w - w * scale) / 2), ((h - w / r * scale) / 2),
      (w * scale), (w / r * scale).
    simpl. split; [reflexivity | split; field; lra].
Qed.

(** C9.  [drawAsset] leaves the canvas as it was when the asset's
    intrinsic width or height is 0, so neither [assetW / assetH] nor the
    cover fit is evaluated with a zero divisor; for an asset with
    positive sides it issues one [drawImage] whose rectangle is finite
    and centred on the canvas. *)
Theorem drawAsset_guard_and_fit (ctx : Canvas) (asset : VisualAsset)
  (w h scale : Q) :
  ((assetW asset = 0%N \/ assetH asset = 0%N) ->
   drawAsset ctx asset w h scale = ctx)
  /\ (((0 < assetW asset)%N /\ (0 < assetH asset)%N) ->
      (exists ratio : Q,
          Js.div (Js.ofN (assetW asset)) (Js.ofN (assetH asset))
          = Js.Fin ratio /\ 0 < ratio)
      /\ exists x y renderW renderH : Q,
          drawAsset ctx asset w h scale
          = ctx ++ [DrawImage asset (Js.Fin x) (Js.Fin y)
                      (Js.Fin renderW) (Js.Fin renderH)]
          /\ x + renderW / 2 == w / 2
          /\ y + renderH / 2 == h / 2).
Proof.
  split.
  - intros [H | H]; unfold drawAsset; rewrite H.
    + reflexivity.
    + now rewrite orb_true_r.
  - intros [Hw Hh].
    assert (Hw' : assetW asset <> 0%N) by lia.
    assert (Hh' : assetH asset <> 0%N) by lia.
    split.
    + destruct (assetRatio_finite _ _ Hw' Hh') as [Hr Hpos]. eauto.
    + destruct (coverFit_finite_centred _ _ w h scale Hw' Hh')
        as (x & y & rW & rH & Hfit & Hx & Hy).
      exists x, y, rW, rH. split; [| now split].
      unfold drawAsset.
      apply N.eqb_neq in Hw'. apply N.eqb_neq in Hh'.
      rewrite Hw', Hh'. simpl. now rewrite Hfit.
Qed.

Lemma drawAsset_guard_and_fit_witness :
  drawAsset [] (AImage (mkImage "broken" 0 0)) 1280 720 1 = []
  /\ exists x y renderW renderH : Q,
      drawAsset [] (AImage (mkImage "square" 100 100)) 1280 720 1
      = [] ++ [DrawImage (AImage (mkImage "square" 100 100))
                 (Js.Fin x) (Js.Fin y) (Js.Fin renderW) (Js.Fin renderH)]
      /\ x + renderW / 2 == 1280 / 2
      /\ y + renderH / 2 == 720 / 2.
Proof.
  split.
  - apply (proj1 (drawAsset_guard_and_fit []
                    (AImage (mkImage "broken" 0 0)) 1280 720 1)).
    left. reflexivity.
  - apply (proj2 (drawAsset_guard_and_fit []
                    (AImage (mkImage "square" 100 100)) 1280 720 1)).
    split; reflexivity.
Defined.

(* ------------------------------------------------------------------ *)
(** ** Transitions *)

Lemma nth_error_map_some {A B : Type} (f : A -> B) (l : list A) (i : nat)
  (a : A) :
  nth_error l i = Some a -> nth_error (map f l) i = Some (f a).
Proof. intros H. rewrite nth_error_map, H. reflexivity. Qed.

Lemma tDuration_cases (clip : HTMLVideoElement) :
  tDuration clip
  = if Js.truthy (vid_duration clip) then vid_duration clip else Js.Fin 2.0.
Proof. reflexivity. Qed.

(** C3, as stated, fails twice: a scene whose transition clip is set but
    does not load within the time limit gets the synthesized slide, and
    a clip whose duration reads 0 is played for 2.0 s. *)
Lemma transition_clip_set_but_not_played_as_is :
  (truthyStr (transitionVideoUrl (imageScene "one" (Some "slow.mp4"%string))) = true
   /\ transitionAfter sampleBrowser storyWithSlowClip 0 = SynthMode 1.0)
  /\ (transitionAfter sampleBrowser storyWithZeroClip 0
      = ClipMode clipZero (Js.Fin 2.0)
      /\ vid_duration clipZero = Js.Fin 0).
Proof. repeat split. Qed.

(** C3 (amended).  For adjacent scenes [i], [i+1]: when scene [i]'s
    transition clip is set and loads, every frame of the transition is
    that clip drawn by [drawAsset] at scale 1.0, never the synthesized
    slide, and the transition lasts the clip's own duration, whatever its
    size, unless that duration is 0 or not a number, when it lasts 2.0 s;
    when the clip is not set or does not load, the transition is the
    synthesized slide and lasts 1.0 s. *)
Theorem transition_after_scene (env : Browser) (story : Story) (i : nat)
  (scene : Scene) :
  nth_error (scenes story) i = Some scene ->
  (i + 1 < List.length (scenes story))%nat ->
  loadSceneTransition env scene
  = (if truthyStr (transitionVideoUrl scene)
     then match videoLoad env (interpolate (transitionVideoUrl scene)) with
          | LoadedData clip => Some clip
          | _ => None
          end
     else None)
  /\ match loadSceneTransition env scene with
     | Some clip =>
         transitionAfter env story i = ClipMode clip (tDuration clip)
         /\ (forall ctx cur next w h t,
                transitionFrame ctx (transitionAfter env story i)
                  cur next w h t
                = drawAsset ctx (AVideo clip) w h 1.0)
         /\ tDuration clip
            = (if Js.truthy (vid_duration clip)
               then vid_duration clip else Js.Fin 2.0)
     | None =>
         transitionAfter env story i = SynthMode 1.0
         /\ (forall ctx cur next w h t,
                transitionFrame ctx (transitionAfter env story i)
                  cur next w h t
                = drawCinematicTransition ctx cur next w h
                    (easeInOutCubic (t / 1.0)))
     end.
Proof.
  intros Hi Hnext.
  split.
  { unfold loadSceneTransition, loadVideo.
    destruct (truthyStr (transitionVideoUrl scene)); [| reflexivity].
    now destruct (videoLoad env _). }
  assert (Hmode : transitionAfter env story i
                  = match loadSceneTransition env scene with
                    | Some clip => ClipMode clip (tDuration clip)
                    | None => SynthMode transitionDuration
                    end).
  { unfold transitionAfter, transitionAssetsOf, visualAssetsOf.
    rewrite (nth_error_map_some _ _ _ _ Hi).
    destruct (nth_error (scenes story) (i + 1)) as [next |] eqn:En.
    - rewrite (nth_error_map_some _ _ _ _ En). reflexivity.
    - apply nth_error_None in En. lia. }
  destruct (loadSceneTransition env scene) as [clip |].
  - split; [exact Hmode | split; [| reflexivity]].
    intros. rewrite Hmode. reflexivity.
  - split; [exact Hmode |].
    intros. rewrite Hmode. reflexivity.
Qed.

Lemma transition_after_scene_witness :
  transitionAfter sampleBrowser storyWithClip 0
  = ClipMode clipA (Js.Fin 0.4).
Proof.
  exact (proj1 (proj2 (transition_after_scene sampleBrowser storyWithClip 0
                         (imageScene "one" (Some "a.mp4"%string))
                         eq_refl (Nat.lt_succ_diag_r 1)))).
Defined.

(* ------------------------------------------------------------------ *)
(** ** Outro *)

(** C5, as stated, fails: a still image that is the second scene of a
    story ends its zoom-out at scale 1.10, and the outro starts drawing
    it at 1.25; nor is the frame held, the outro goes on to 1.30. *)
Lemma outro_does_not_resume_scene_scale :
  let img := AImage (mkImage "last" 1024 1024) in
  currentScale 1 1 == 1.10
  /\ outroScale img 0 == 1.25
  /\ ~ outroScale img 0 == currentScale 1 1
  /\ ~ outroScale img 1 == outroScale img 0.
Proof. repeat split; discriminate. Qed.

(** C5 (amended).  The outro runs on the last scene's asset.  Each of
    its frames draws that asset, a video clip at scale 1.0 as in its
    scene, a still image of an even-indexed scene from the scale 1.25 at
    which that scene ended (breathing aside) on to [1.25 + 0.05 q], [q]
    being [elapsed / 1.5], under a black overlay of alpha [q], so from 0
    to 1 linearly over 1.5 s.  A solid black frame held for 500 ms
    follows. *)
Theorem outro_frames (ctx : Canvas) (lastAsset : VisualAsset)
  (w h tElapsed : Q) :
  let q := tElapsed / 1.5 in
  outroFrame ctx lastAsset w h tElapsed
  = drawAsset ctx lastAsset w h (outroScale lastAsset q)
      ++ [FillRect (Rgba000 q) 0 0 w h]
  /\ (forall vid, outroScale (AVideo vid) q == 1.0)
  /\ (forall img i,
         outroScale (AImage img) q == currentScale (2 * i) 1 + 0.05 * q)
  /\ (0 / 1.5 == 0 /\ 1.5 / 1.5 == 1)
  /\ (forall visualAssets world,
         rendered (snd (outro (visualAssets ++ [lastAsset]) world))
         = rendered world ++ [Outro lastAsset 1.5; BlackHold 500])
  /\ blackHoldFrame ctx w h = ctx ++ [FillRect Black 0 0 w h].
Proof.
  intros q.
  split; [reflexivity |].
  split; [intros vid; reflexivity |].
  split.
  { intros img i. rewrite currentScale_even.
    - unfold outroScale. simpl. lra.
    - apply Nat.even_spec. now exists i. }
  split; [split; reflexivity |].
  split; [| reflexivity].
  intros visualAssets world. unfold outro, bind. simpl.
  rewrite length_app, Nat.add_sub, nth_error_app2, Nat.sub_diag by lia.
  simpl. rewrite <- app_assoc. reflexivity.
Qed.

(* ------------------------------------------------------------------ *)
(** ** Subtitle wrapping *)

Section Wrapping.

Variable measure : string -> Q.
Variable limit : Q.

Lemma Qlt_bool_true (a b : Q) : Qlt_bool a b = true -> a < b.
Proof.
  unfold Qlt_bool. intros H. apply negb_true_iff in H.
  apply Qnot_le_lt. intros Hle. apply Qle_bool_iff in Hle. congruence.
Qed.

Lemma split_chars_single (text : string) :
  Forall (fun word => String.length word = 1%nat) (split_chars text).
Proof.
  unfold split_chars. induction text as [| c rest IH]; simpl.
  - constructor.
  - constructor; [reflexivity | exact IH].
Qed.



Lemma append_assoc (a b c : string) :
  ((a ++ b) ++ c)%string = (a ++ (b ++ c))%string.
Proof. induction a as [| x a IH]; simpl; [| rewrite IH]; reflexivity. Qed.

Lemma append_empty_r (a : string) : (a ++ "")%string = a.
Proof. induction a as [| x a IH]; simpl; [| rewrite IH]; reflexivity. Qed.

Lemma concatLines_app (l1 l2 : list string) :
  concatLines (l1 ++ l2)
  = (concatLines l1 ++ concatLines l2)%string.
Proof.
  induction l1 as [| x l1 IH]; simpl; [reflexivity |].
  now rewrite IH, append_assoc.
Qed.

Lemma concatLines_snoc (l : list string) (x : string) :
  concatLines (l ++ [x]) = (concatLines l ++ x)%string.
Proof. rewrite concatLines_app. simpl. now rewrite append_empty_r. Qed.

Lemma concatLines_split_chars (text : string) :
  concatLines (split_chars text) = text.
Proof.
  unfold split_chars. induction text as [| c rest IH]; simpl.
  - reflexivity.
  - now rewrite IH.
Qed.

Lemma wrapLoop_concat (words : list string) :
  forall lines currentLine ls c,
    wrapLoop measure limit words lines currentLine = (ls, c) ->
    concatLines (ls ++ [c])
    = (concatLines (lines ++ [currentLine]) ++ concatLines words)%string.
Proof.
  induction words as [| word rest IH];
    intros lines currentLine ls c Hrun; simpl in Hrun.
  - inversion Hrun; subst. simpl. now rewrite append_empty_r.
  - destruct (Qlt_bool (measure (currentLine ++ word)) limit).
    + rewrite (IH _ _ _ _ Hrun). simpl.
      rewrite !concatLines_snoc, !append_assoc. reflexivity.
    + rewrite (IH _ _ _ _ Hrun). simpl.
      rewrite !concatLines_snoc, !append_assoc. reflexivity.
Qed.

Lemma wrapLines_concat (text : string) :
  text <> EmptyString ->
  exists ls : list string,
    wrapLines measure limit text = map Some ls
    /\ ls <> []
    /\ concatLines ls = text.
Proof.
  intros Hne. unfold wrapLines.
  pose proof (concatLines_split_chars text) as Hcat.
  destruct (split_chars text) as [| first rest] eqn:Es.
  - simpl in Hcat. congruence.
  - destruct (wrapLoop measure limit rest [] first) as [ls c] eqn:Erun.
    exists (ls ++ [c]). split; [reflexivity | split].
    + intros H. now apply app_eq_nil in H as [_ H].
    + rewrite (wrapLoop_concat rest [] first ls c Erun).
      simpl in *. now rewrite append_empty_r.
Qed.

End Wrapping.







(** C10.  For a narration that is not empty the wrapping produces at
    least one line, every line is a string, and the lines joined in
    order are the narration. *)
Theorem subtitle_lines_partition (env : Browser) (text : string) (w h : Q) :
  text <> EmptyString ->
  exists ls : list string,
    subtitleLines env text w h = map Some ls
    /\ (1 <= List.length ls)%nat
    /\ concatLines ls = text.
Proof.
  intros Hne.
  destruct (wrapLines_concat (measureText env (fontSize w h)) (maxWidth w)
              text Hne) as (ls & Hls & Hnil & Hcat).
  exists ls. split; [exact Hls | split; [| exact Hcat]].
  destruct ls; [congruence | simpl; lia].
Qed.

Lemma subtitle_lines_partition_witness :
  exists ls : list string,
    subtitleLines sampleBrowser "once upon a time" 720 1280 = map Some ls
    /\ (1 <= List.length ls)%nat
    /\ concatLines ls = "once upon a time"%string.
Proof.
  apply (subtitle_lines_partition sampleBrowser "once upon a time" 720 1280).
  discriminate.
Defined.

(* ------------------------------------------------------------------ *)
(** ** Progress reports *)

Lemma emits_eq {A : Type} (c : M A) (l l' : list Q) :
  l = l' -> emits c l -> emits c l'.
Proof. now intros ->. Qed.

Lemma emits_ret {A : Type} (a : A) : emits (ret a) [].
Proof.
  intros w. exists 0%nat. simpl. rewrite app_nil_r. auto.
Qed.

Lemma emits_throw {A : Type} (e : Err) (full : list Q) :
  emits (@throw A e) full.
Proof.
  intros w. exists 0%nat. simpl. rewrite app_nil_r.
  split; [lia | split; [reflexivity | discriminate]].
Qed.

Lemma emits_hang {A : Type} (full : list Q) : emits (@hang A) full.
Proof.
  intros w. exists 0%nat. simpl. rewrite app_nil_r.
  split; [lia | split; [reflexivity | discriminate]].
Qed.

Lemma emits_onProgress (p : Q) (status : Status) :
  emits (onProgress p status) [p].
Proof.
  intros w. exists 1%nat. unfold percents. simpl.
  rewrite map_app. auto.
Qed.

Lemma emits_render (seg : Segment) : emits (render seg) [].
Proof.
  intros w. exists 0%nat. unfold percents. simpl. rewrite app_nil_r. auto.
Qed.

Lemma emits_console_error (e : Err) : emits (console_error e) [].
Proof.
  intros w. exists 0%nat. unfold percents. simpl. rewrite app_nil_r. auto.
Qed.

Lemma emits_play (vid : HTMLVideoElement) : emits (play vid) [].
Proof.
  unfold play. destruct (vid_play vid);
    [apply emits_throw | apply emits_ret].
Qed.

Lemma emits_resumeAudio (env : Browser) : emits (resumeAudio env) [].
Proof.
  unfold resumeAudio. destruct (resume env);
    [apply emits_throw | apply emits_ret].
Qed.

Lemma firstn_app_short {A : Type} (k : nat) (l1 l2 : list A) :
  (k <= List.length l1)%nat -> firstn k (l1 ++ l2) = firstn k l1.
Proof.
  intros H. rewrite firstn_app.
  replace (k - List.length l1)%nat with 0%nat by lia.
  simpl. now rewrite app_nil_r.
Qed.

Lemma firstn_app_long {A : Type} (k : nat) (l1 l2 : list A) :
  firstn (List.length l1 + k) (l1 ++ l2) = l1 ++ firstn k l2.
Proof.
  rewrite firstn_app, firstn_all2 by lia.
  now replace (List.length l1 + k - List.length l1)%nat with k by lia.
Qed.

(** Sequencing: the reports of the first step, then those of the
    second. *)
Lemma emits_bind {A B : Type} (c : M A) (k : A -> M B) (l1 l2 : list Q) :
  emits c l1 -> (forall a, emits (k a) l2) -> emits (bind c k) (l1 ++ l2).
Proof.
  intros Hc Hk w. unfold bind.
  destruct (Hc w) as (k1 & Hle1 & Hlog1 & Hall1).
  destruct (c w) as [[a | e |] w1] eqn:Ec; simpl in *.
  - specialize (Hall1 a eq_refl). subst k1.
    destruct (Hk a w1) as (k2 & Hle2 & Hlog2 & Hall2).
    exists (List.length l1 + k2)%nat.
    rewrite length_app, firstn_app_long, Hlog2, Hlog1, firstn_all.
    split; [lia | split; [now rewrite app_assoc |]].
    intros b Hb. rewrite (Hall2 b Hb). reflexivity.
  - exists k1. rewrite length_app, firstn_app_short by exact Hle1.
    split; [lia | split; [exact Hlog1 | discriminate]].
  - exists k1. rewrite length_app, firstn_app_short by exact Hle1.
    split; [lia | split; [exact Hlog1 | discriminate]].
Qed.

Lemma emits_preloadLoop (env : Browser) (total : Q) (rest : list Scene) :
  forall i visualAssets transitionAssets,
    emits (preloadLoop env total i rest visualAssets transitionAssets)
      (map (fun k => ofNat k / total * 20) (seq i (List.length rest))).
Proof.
  induction rest as [| scene rest IH]; intros i va ta; simpl.
  - apply emits_ret.
  - apply (emits_bind _ _ [_] _ (emits_onProgress _ _)).
    intros _. apply IH.
Qed.

Lemma emits_runTransition (i : nat) (nextAsset : option VisualAsset)
  (transitionVideo : option HTMLVideoElement) :
  emits (runTransition i nextAsset transitionVideo) [].
Proof.
  unfold runTransition.
  destruct (transitionMode nextAsset transitionVideo) as [| clip d | d].
  - apply emits_ret.
  - apply (emits_bind _ _ [] [] (emits_play clip)). intros _.
    destruct (loopExits d); [apply emits_render | apply emits_hang].
  - apply emits_render.
Qed.

Lemma emits_sceneIteration (env : Browser) (total : Q)
  (visualAssets : list VisualAsset)
  (transitionAssets : list (option HTMLVideoElement))
  (i : nat) (scene : Scene) :
  emits (sceneIteration env total visualAssets transitionAssets i scene)
    [20 + ofNat i / total * 70].
Proof.
  unfold sceneIteration.
  apply (emits_bind _ _ [_] [] (emits_onProgress _ _)). intros _.
  apply (emits_bind _ _ [] []).
  { destruct (audioData scene) as [bytes |]; [| apply emits_ret].
    destruct (decodeAudioData env bytes);
      [apply emits_console_error | apply emits_ret]. }
  intros _.
  destruct (nth_error visualAssets i) as [asset |]; [| apply emits_throw].
  apply (emits_bind _ _ [] []).
  { destruct asset; [apply emits_ret | apply emits_play]. }
  intros _.
  apply (emits_bind _ _ [] [] (emits_render _)). intros _.
  apply emits_runTransition.
Qed.

Lemma emits_mainLoop (env : Browser) (total : Q)
  (visualAssets : list VisualAsset)
  (transitionAssets : list (option HTMLVideoElement)) (rest : list Scene) :
  forall i,
    emits (mainLoop env total visualAssets transitionAssets i rest)
      (map (fun k => 20 + ofNat k / total * 70) (seq i (List.length rest))).
Proof.
  induction rest as [| scene rest IH]; intros i; simpl.
  - apply emits_ret.
  - apply (emits_bind _ _ [_] _ (emits_sceneIteration _ _ _ _ _ _)).
    intros _. apply IH.
Qed.

Lemma emits_outro (visualAssets : list VisualAsset) :
  emits (outro visualAssets) [99].
Proof.
  unfold outro.
  apply (emits_bind _ _ [_] [] (emits_onProgress _ _)). intros _.
  destruct (nth_error visualAssets _); [| apply emits_throw].
  apply (emits_bind _ _ [] [] (emits_render _)). intros _.
  apply emits_render.
Qed.

Lemma emits_pipeline (env : Browser) (story : Story)
  (customCover : option string) :
  emits (pipeline env story customCover)
    (fullReports (hasCover story customCover) (List.length (scenes story))).
Proof.
  unfold pipeline, fullReports, hasCover, loadingReports, recordingReports.
  apply emits_bind.
  { destruct (truthyStr (orStr customCover (coverImage story))).
    - apply (emits_bind _ _ [_] [] (emits_onProgress _ _)). intros _.
      apply emits_ret.
    - apply emits_ret. }
  intros coverAsset.
  apply emits_bind; [apply emits_preloadLoop |].
  intros [visualAssets transitionAssets].
  apply (emits_bind _ _ [] _ (emits_resumeAudio env)). intros _.
  apply (emits_bind _ _ [] _).
  { destruct coverAsset as [cover |]; [| apply emits_ret].
    apply (emits_bind _ _ [] [] (emits_render _)). intros _.
    apply emits_render. }
  intros _.
  apply emits_bind; [apply emits_mainLoop |].
  intros _. apply emits_outro.
Qed.

(** The whole export in terms of how the [try] body ends. *)
Lemma generateStoryVideo_cases (env : Browser) (story : Story)
  (customCover : option string) (w : World) :
  generateStoryVideo env story customCover w
  = match pipeline env story customCover (started w) with
    | (Normal _, w') =>
        (Resolved (mkBlob (beforeSemicolon (selectMimeType env))
                     (rendered w')),
         cleaned w')
    | (Thrown e, w') => (Rejected e, cleaned (logged e w'))
    | (Hung, w') => (Pending, w')
    end.
Proof.
  unfold generateStoryVideo, bind, try_catch_finally, recorder_start.
  fold (started w).
  destruct (pipeline env story customCover (started w)) as [[[] | e |] w'];
    reflexivity.
Qed.

Lemma ofNat_le (i j : nat) : (i <= j)%nat -> ofNat i <= ofNat j.
Proof. intros H. unfold ofNat. rewrite <- Zle_Qle. lia. Qed.

Lemma ofNat_nonneg (i : nat) : 0 <= ofNat i.
Proof. apply (ofNat_le 0 i). lia. Qed.

Lemma ofNat_pred (i n : nat) : (i < n)%nat -> ofNat i <= ofNat n - 1.
Proof.
  intros H. unfold ofNat.
  setoid_replace (inject_Z (Z.of_nat n) - 1)
    with (inject_Z (Z.of_nat n - 1)).
  - rewrite <- Zle_Qle. lia.
  - unfold Zminus. rewrite inject_Z_plus. reflexivity.
Qed.

(** [i / n] grows with [i]. *)
Lemma fraction_le (i j n : nat) :
  (i <= j)%nat -> ofNat i / ofNat n <= ofNat j / ofNat n.
Proof.
  intros H. unfold Qdiv.
  apply Qmult_le_compat_r; [now apply ofNat_le |].
  apply Qinv_le_0_compat, ofNat_nonneg.
Qed.

(** For [i < n], [i / n <= (n - 1) / n < 1]. *)
Lemma fraction_bound (i n : nat) :
  (i < n)%nat ->
  0 <= ofNat i / ofNat n
  /\ ofNat i / ofNat n <= (ofNat n - 1) / ofNat n
  /\ (ofNat n - 1) / ofNat n < 1.
Proof.
  intros H.
  assert (Hn : 0 < ofNat n).
  { unfold ofNat. replace 0 with (inject_Z 0) by reflexivity.
    rewrite <- Zlt_Qlt. lia. }
  assert (Hinv : 0 <= / ofNat n) by (apply Qinv_le_0_compat; lra).
  split; [| split].
  - unfold Qdiv. apply Qmult_le_0_compat; [apply ofNat_nonneg | exact Hinv].
  - unfold Qdiv. apply Qmult_le_compat_r; [now apply ofNat_pred | exact Hinv].
  - apply Qlt_shift_div_r; [exact Hn | lra].
Qed.

Lemma sorted_map_seq (f : nat -> Q) (len : nat) :
  (forall i j, (i <= j)%nat -> f i <= f j) ->
  forall start, StronglySorted Qle (map f (seq start len)).
Proof.
  intros Hmono. induction len as [| len IH]; intros start; simpl.
  - constructor.
  - constructor; [apply IH |].
    apply Forall_forall. intros x Hx.
    apply in_map_iff in Hx. destruct Hx as (j & <- & Hj).
    apply in_seq in Hj. apply Hmono. lia.
Qed.

Lemma sorted_app_bound (l1 l2 : list Q) (b : Q) :
  StronglySorted Qle l1 -> StronglySorted Qle l2 ->
  Forall (fun x => x <= b) l1 -> Forall (fun x => b <= x) l2 ->
  StronglySorted Qle (l1 ++ l2).
Proof.
  intros H1 H2 Hb1 Hb2. induction H1 as [| x l1 Hs IH Hx]; simpl.
  - exact H2.
  - inversion Hb1 as [| ? ? Hxb Hrest]; subst.
    constructor; [now apply IH |].
    apply Forall_app. split; [exact Hx |].
    eapply Forall_impl; [| exact Hb2].
    intros y Hy. simpl in Hy. lra.
Qed.

Lemma sorted_firstn (k : nat) (l : list Q) :
  StronglySorted Qle l -> StronglySorted Qle (firstn k l).
Proof.
  intros H. revert k. induction H as [| x l Hs IH Hx]; intros [| k]; simpl;
    try constructor.
  - apply IH.
  - apply Forall_forall. intros y Hy.
    rewrite Forall_forall in Hx. apply Hx.
    revert Hy. clear. revert k.
    induction l as [| z l IH]; intros [| k]; simpl; try tauto.
    intros [-> | H]; [now left | right; eauto].
Qed.

Lemma loadingReports_bounds (n : nat) :
  Forall (fun p => 0 <= p /\ p <= (ofNat n - 1) / ofNat n * 20 /\ p < 20)
    (loadingReports n).
Proof.
  apply Forall_forall. intros p Hp.
  apply in_map_iff in Hp. destruct Hp as (i & <- & Hi).
  apply in_seq in Hi.
  destruct (fraction_bound i n) as (H0 & H1 & H2); [lia |].
  repeat split; lra.
Qed.

Lemma recordingReports_bounds (n : nat) :
  Forall (fun p => 20 <= p /\ p < 90) (recordingReports n).
Proof.
  apply Forall_forall. intros p Hp.
  apply in_map_iff in Hp. destruct Hp as (i & <- & Hi).
  apply in_seq in Hi.
  destruct (fraction_bound i n) as (H0 & H1 & H2); [lia |].
  split; lra.
Qed.

Lemma fullReports_sorted (cover : bool) (n : nat) :
  StronglySorted Qle (fullReports cover n).
Proof.
  unfold fullReports.
  assert (Hrec : StronglySorted Qle (recordingReports n ++ [99])).
  { apply (sorted_app_bound _ _ 90).
    - apply sorted_map_seq. intros i j Hij.
      pose proof (fraction_le i j n Hij). lra.
    - repeat constructor.
    - eapply Forall_impl; [| apply recordingReports_bounds].
      intros p [_ Hp]. lra.
    - repeat constructor. discriminate. }
  assert (Hrec20 : Forall (fun x => 20 <= x) (recordingReports n ++ [99])).
  { apply Forall_app. split.
    - eapply Forall_impl; [| apply recordingReports_bounds].
      intros p [Hp _]. exact Hp.
    - repeat constructor. discriminate. }
  assert (Hload : StronglySorted Qle
                    (loadingReports n ++ recordingReports n ++ [99])).
  { apply (sorted_app_bound _ _ 20); [| exact Hrec | | exact Hrec20].
    - apply sorted_map_seq. intros i j Hij.
      pose proof (fraction_le i j n Hij). lra.
    - eapply Forall_impl; [| apply loadingReports_bounds].
      intros p (_ & _ & Hp). lra. }
  destruct cover; [| exact Hload].
  apply (sorted_app_bound [0] _ 0); [repeat constructor | exact Hload | |].
  - repeat constructor. discriminate.
  - apply Forall_app. split.
    + eapply Forall_impl; [| apply loadingReports_bounds].
      intros p (Hp & _). exact Hp.
    + eapply Forall_impl; [| exact Hrec20]. intros p Hp. simpl in Hp. lra.
Qed.

(** C7.  The percentages one export passes to the progress callback are
    a prefix of: 0 when there is a cover, then [i / N * 20] for each
    scene, then [20 + i / N * 70] for each scene, then 99; all of it
    when the export completes.  That sequence never decreases, every
    asset-loading report is at most [(N - 1) / N * 20], so below 20,
    and every main-loop report is at least 20 and below 90. *)
Theorem progress_reports_monotone (env : Browser) (story : Story)
  (customCover : option string) (w : World) :
  let n := List.length (scenes story) in
  let full := fullReports (hasCover story customCover) n in
  let out := generateStoryVideo env story customCover w in
  (exists k : nat,
      percents (snd out) = percents w ++ firstn k full
      /\ StronglySorted Qle (firstn k full)
      /\ match fst out with
         | Resolved _ => firstn k full = full
         | _ => True
         end)
  /\ full = (if hasCover story customCover then [0] else [])
            ++ loadingReports n ++ recordingReports n ++ [99]
  /\ StronglySorted Qle full
  /\ Forall (fun p => p <= (ofNat n - 1) / ofNat n * 20 /\ p < 20)
       (loadingReports n)
  /\ Forall (fun p => 20 <= p /\ p < 90) (recordingReports n).
Proof.
  intros n full out.
  split; [| split; [reflexivity | split; [apply fullReports_sorted | split]]].
  - destruct (emits_pipeline env story customCover (started w))
      as (k & Hle & Hlog & Hall).
    fold n in Hlog, Hall, Hle. fold full in Hlog, Hall, Hle.
    exists k. subst out. rewrite generateStoryVideo_cases.
    destruct (pipeline env story customCover (started w))
      as [[[] | e |] w'] eqn:Ep; simpl in *.
    + split; [exact Hlog | split; [apply sorted_firstn,
                                      fullReports_sorted |]].
      rewrite (Hall tt eq_refl). apply firstn_all.
    + split; [exact Hlog | split; [apply sorted_firstn,
                                      fullReports_sorted | exact I]].
    + split; [exact Hlog | split; [apply sorted_firstn,
                                      fullReports_sorted | exact I]].
  - eapply Forall_impl; [| apply loadingReports_bounds].
    intros p (_ & H1 & H2). now split.
  - apply recordingReports_bounds.
Qed.

(* ------------------------------------------------------------------ *)
(** ** The error path *)

(** C2, as stated, fails in its second half: when the second scene's
    clip refuses to play, the first scene and its transition were
    already encoded, the cleanup runs, and the caller gets the error,
    not a blob. *)
Lemma failed_export_delivers_no_blob :
  let out := generateStoryVideo sampleBrowser storyWithBlockedVideo None
               initialWorld in
  fst out = Rejected (DOMException "NotAllowedError")
  /\ List.length (rendered (snd out)) = 2%nat
  /\ recorder (snd out) = RecInactive
  /\ audioCtx (snd out) = AudioClosed
  /\ ~ exists blob, fst out = Resolved blob.
Proof.
  repeat split.
  intros [blob H]. discriminate.
Qed.

(** C2 (amended).  When the pipeline throws, the recorder is stopped
    and the audio context is closed on that exit path, the error is
    logged and thrown again, and the caller's promise is rejected with
    it: what was encoded up to that point stays with the recorder and no
    blob is delivered. *)
Theorem failed_export_cleans_up_and_rethrows (env : Browser) (story : Story)
  (customCover : option string) (w w' : World) (e : Err) :
  pipeline env story customCover (started w) = (Thrown e, w') ->
  let out := generateStoryVideo env story customCover w in
  fst out = Rejected e
  /\ recorder (snd out) = RecInactive
  /\ audioCtx (snd out) = AudioClosed
  /\ console (snd out) = console w' ++ [e]
  /\ rendered (snd out) = rendered w'
  /\ ~ exists blob, fst out = Resolved blob.
Proof.
  intros Hthrow out. subst out.
  rewrite generateStoryVideo_cases, Hthrow. simpl.
  repeat split.
  intros [blob H]. discriminate.
Qed.

Lemma failed_export_cleans_up_and_rethrows_witness :
  fst (generateStoryVideo sampleBrowser storyWithBlockedVideo None
         initialWorld)
  = Rejected (DOMException "NotAllowedError")
  /\ recorder (snd (generateStoryVideo sampleBrowser storyWithBlockedVideo
                      None initialWorld)) = RecInactive
  /\ audioCtx (snd (generateStoryVideo sampleBrowser storyWithBlockedVideo
                      None initialWorld)) = AudioClosed.
Proof.
  destruct (failed_export_cleans_up_and_rethrows sampleBrowser
              storyWithBlockedVideo None initialWorld
              (snd (pipeline sampleBrowser storyWithBlockedVideo None
                      (started initialWorld)))
              (DOMException "NotAllowedError") eq_refl)
    as (Hout & Hrec & Haudio & _).
  split; [exact Hout | split; [exact Hrec | exact Haudio]].
Defined.

(* ------------------------------------------------------------------ *)
(** ** Worked runs *)

(** Two image scenes with 4 s and 1 s of narration, no cover, no
    transition clip, on a host that only records WebM with VP9: the
    export resolves with a WebM blob holding a 4 s scene, a 1 s slide, a
    2 s scene, the 1.5 s fade and the 500 ms black hold, having reported
    0, 10, 20, 55 and 99 percent. *)
Example two_scene_export :
  let story :=
    mkStory Wide16x9
      [mkScene "one" (Some "iVBORw0KGgo="%string) None
         (Some [82; 73; 70; 70]%N) None;
       mkScene "two" (Some "iVBORw0KGgo="%string) None (Some [82]%N) None]
      None in
  let out := generateStoryVideo sampleBrowser story None initialWorld in
  (exists a b,
      fst out
      = Resolved
          (mkBlob "video/webm"
             [SceneSegment 0 a 4; TransitionSegment 0 (SynthMode 1.0);
              SceneSegment 1 b 2.0; Outro b 1.5; BlackHold 500]))
  /\ Forall2 Qeq (percents (snd out)) [0; 10; 20; 55; 99]
  /\ recorder (snd out) = RecInactive
  /\ audioCtx (snd out) = AudioClosed.
Proof.
  split; [do 2 eexists; vm_compute; reflexivity |].
  split; [| split; reflexivity].
  repeat constructor.
Qed.

(** An export of a story without scenes throws in the outro, on the
    asset that is not there, after reporting 99 percent. *)
Example empty_story_export :
  generateStoryVideo sampleBrowser (mkStory Tall9x16 [] None) None initialWorld
  = (Rejected (TypeError "Cannot read properties of undefined"),
     mkWorld RecInactive AudioClosed [(99, Finishing)]
       [TypeError "Cannot read properties of undefined"] []).
Proof. reflexivity. Qed.

(* ================================================================== *)
(** * Further properties of the exporter *)

(* ------------------------------------------------------------------ *)
(** ** Cover fit fills the canvas *)

Lemma Qlt_bool_false (a b : Q) : Qlt_bool a b = false -> b <= a.
Proof.
  unfold Qlt_bool. intros H. apply negb_false_iff in H.
  now apply Qle_bool_iff.
Qed.

Lemma Js_gt_finite (a b : Q) :
  Js.gt (Js.Fin a) (Js.Fin b) = Qlt_bool b a.
Proof. reflexivity. Qed.

Lemma Js_div_finite (a b : Q) :
  ~ b == 0 -> Js.div (Js.Fin a) (Js.Fin b) = Js.Fin (a / b).
Proof.
  intros H. unfold Js.div.
  destruct (Qeq_bool b 0) eqn:E; [| reflexivity].
  apply Qeq_bool_eq in E. contradiction.
Qed.

(** A side [c] of the canvas is inside a centred side [R >= c]. *)
Lemma centred_side_covers (c R : Q) :
  c <= R -> (c - R) / 2 <= 0 /\ c <= (c - R) / 2 + R.
Proof.
  intros H.
  setoid_replace ((c - R) / 2) with ((c - R) * (1 # 2)) by field.
  split; lra.
Qed.

Lemma coverFit_covers (aW aH : N) (w h scale : Q) :
  aW <> 0%N -> aH <> 0%N -> 0 < w -> 0 < h -> 0 <= scale ->
  exists x y renderW renderH : Q,
    coverFit aW aH w h scale
    = mkRect (Js.Fin x) (Js.Fin y) (Js.Fin renderW) (Js.Fin renderH)
    /\ renderW * inject_Z (Z.of_N aH) == renderH * inject_Z (Z.of_N aW)
    /\ w * scale <= renderW
    /\ h * scale <= renderH
    /\ (renderW == w * scale \/ renderH == h * scale)
    /\ (1 <= scale ->
        x <= 0 /\ y <= 0 /\ w <= x + renderW /\ h <= y + renderH).
Proof.
  intros Hw Hh Hcw Hch Hs.
  pose proof (ofN_positive aW Hw) as HaW.
  pose proof (ofN_positive aH Hh) as HaH.
  destruct (assetRatio_finite aW aH Hw Hh) as [Hr Hpos].
  set (a := inject_Z (Z.of_N aW)) in *.
  set (b := inject_Z (Z.of_N aH)) in *.
  set (r := a / b) in *.
  assert (Hrb : r * b == a) by (unfold r; field; lra).
  unfold coverFit. rewrite Hr.
  clearbody r. clearbody a b. clear Hr.
  rewrite (Js_div_finite w h) by lra.
  rewrite Js_gt_finite.
  destruct (Qlt_bool (w / h) r) eqn:E.
  - apply Qlt_bool_true in E.
    assert (Hwh : w < h * r).
    { apply (Qmult_lt_r _ _ h Hch) in E.
      setoid_replace (w / h * h) with w in E by (field; lra). lra. }
    exists ((w - h * r * scale) / 2), ((h - h * scale) / 2),
      (h * r * scale), (h * scale).
    simpl. split; [reflexivity |].
    split; [rewrite <- Hrb; ring |].
    split; [apply Qmult_le_compat_r; lra |].
    split; [lra |].
    split; [right; reflexivity |].
    intros H1.
    assert (Hy : h <= h * scale) by nra.
    assert (Hx : w <= h * r * scale) by nra.
    destruct (centred_side_covers _ _ Hx), (centred_side_covers _ _ Hy).
    tauto.
  - apply Qlt_bool_false in E.
    assert (Hd : Js.div (Js.Fin w) (Js.Fin r) = Js.Fin (w / r))
      by (apply Js_div_finite; lra).
    rewrite Hd.
    assert (Hwr : h <= w / r).
    { apply Qle_shift_div_l; [exact Hpos |].
      apply (Qmult_le_r _ _ h Hch).
      setoid_replace (w * h) with (w / h * h * h) by (field; lra).
      setoid_replace (h * r * h) with (r * h * h) by ring.
      apply Qmult_le_compat_r; [| lra].
      apply Qmult_le_compat_r; lra. }
    exists ((w - w * scale) / 2), ((h - w / r * scale) / 2),
      (w * scale), (w / r * scale).
    simpl. split; [reflexivity |].
    split.
    { setoid_replace (w / r * scale * a) with (w / r * scale * (r * b))
        by (rewrite Hrb; reflexivity).
      field. lra. }
    split; [lra |].
    split; [apply Qmult_le_compat_r; lra |].
    split; [left; reflexivity |].
    intros H1.
    assert (Hx : w <= w * scale) by nra.
    assert (Hy : h <= w / r * scale).
    { apply Qle_trans with (w / r); [exact Hwr |].
      setoid_replace (w / r) with (w / r * 1) at 1 by ring.
      apply Qmult_le_l; [| exact H1].
      apply Qlt_le_trans with h; assumption. }
    destruct (centred_side_covers _ _ Hx), (centred_side_covers _ _ Hy).
    tauto.
Qed.

(** X1.  On a canvas of positive size, the rectangle [drawAsset] gives
    an asset with positive sides keeps the asset's aspect ratio, is at
    least [scale] times the canvas in both directions and exactly that
    in one of them; with [scale >= 1] it covers the whole canvas, so
    nothing is letterboxed. *)
Theorem coverFit_covers_canvas (aW aH : N) (w h scale : Q) :
  aW <> 0%N -> aH <> 0%N -> 0 < w -> 0 < h -> 0 <= scale ->
  exists x y renderW renderH : Q,
    coverFit aW aH w h scale
    = mkRect (Js.Fin x) (Js.Fin y) (Js.Fin renderW) (Js.Fin renderH)
    /\ renderW * inject_Z (Z.of_N aH) == renderH * inject_Z (Z.of_N aW)
    /\ w * scale <= renderW
    /\ h * scale <= renderH
    /\ (renderW == w * scale \/ renderH == h * scale)
    /\ (1 <= scale ->
        x <= 0 /\ y <= 0 /\ w <= x + renderW /\ h <= y + renderH).
Proof. apply coverFit_covers. Qed.

Lemma coverFit_covers_canvas_witness :
  exists x y renderW renderH : Q,
    coverFit 1024 1024 1280 720 1.1
    = mkRect (Js.Fin x) (Js.Fin y) (Js.Fin renderW) (Js.Fin renderH)
    /\ 1280 * 1.1 <= renderW /\ 720 * 1.1 <= renderH.
Proof.
  destruct (coverFit_covers_canvas 1024 1024 1280 720 1.1)
    as (x & y & rW & rH & Hfit & _ & HW & HH & _);
    try discriminate; try reflexivity.
  exists x, y, rW, rH. split; [exact Hfit | split; [exact HW | exact HH]].
Defined.

(* ------------------------------------------------------------------ *)
(** ** The easing of the synthesized slide *)

Lemma cube_le (a b : Q) : 0 <= a -> a <= b -> a * a * a <= b * b * b.
Proof.
  intros Ha Hab.
  assert (Haa : a * a <= b * b) by nra.
  assert (H0 : 0 <= a * a) by nra.
  nra.
Qed.

Lemma ease_low (p : Q) :
  p < 0.5 -> easeInOutCubic p == 4 * (p * p * p).
Proof.
  intros H. unfold easeInOutCubic.
  destruct (Qlt_bool p 0.5) eqn:E.
  - ring.
  - apply Qlt_bool_false in E. lra.
Qed.

Lemma ease_high (p : Q) :
  0.5 <= p -> easeInOutCubic p == 1 - 4 * ((1 - p) * (1 - p) * (1 - p)).
Proof.
  intros H. unfold easeInOutCubic.
  destruct (Qlt_bool p 0.5) eqn:E.
  - apply Qlt_bool_true in E. lra.
  - field.
Qed.

Lemma ease_range (p : Q) :
  0 <= p -> p <= 1 -> 0 <= easeInOutCubic p /\ easeInOutCubic p <= 1.
Proof.
  intros H0 H1.
  destruct (Qlt_le_dec p 0.5) as [Hlow | Hhigh].
  - rewrite (ease_low p Hlow).
    pose proof (cube_le 0 p (Qle_refl 0) H0) as Hc0.
    pose proof (cube_le p 0.5 H0 (Qlt_le_weak _ _ Hlow)) as Hc1.
    setoid_replace (0.5 * 0.5 * 0.5) with (1 # 8) in Hc1 by reflexivity.
    split; lra.
  - rewrite (ease_high p Hhigh).
    assert (Hq0 : 0 <= 1 - p) by lra.
    pose proof (cube_le 0 (1 - p) (Qle_refl 0) Hq0) as Hc0.
    assert (Hq1 : 1 - p <= 0.5) by lra.
    pose proof (cube_le (1 - p) 0.5 Hq0 Hq1) as Hc1.
    setoid_replace (0.5 * 0.5 * 0.5) with (1 # 8) in Hc1 by reflexivity.
    split; lra.
Qed.

(** X2.  The easing of the slide starts at 0, passes 0.5 at the middle
    and reaches 1 at the end, stays between 0 and 1, never decreases on
    [0, 1], and is symmetric about the middle:
    [ease (1 - p) = 1 - ease p]. *)
Theorem easeInOutCubic_shape (p q : Q) :
  (easeInOutCubic 0 == 0 /\ easeInOutCubic 0.5 == 0.5
   /\ easeInOutCubic 1 == 1)
  /\ easeInOutCubic (1 - p) == 1 - easeInOutCubic p
  /\ (0 <= p -> p <= q -> q <= 1 ->
      0 <= easeInOutCubic p
      /\ easeInOutCubic p <= easeInOutCubic q
      /\ easeInOutCubic q <= 1).
Proof.
  split; [split; [reflexivity | split; reflexivity] |].
  split.
  - destruct (Qlt_le_dec p 0.5) as [Hlow | Hhigh].
    + rewrite (ease_low p Hlow), (ease_high (1 - p)) by lra.
      setoid_replace (1 - (1 - p)) with p by ring. reflexivity.
    + destruct (Qlt_le_dec 0.5 p) as [Hgt | Hle].
      * rewrite (ease_high p Hhigh), (ease_low (1 - p)) by lra. ring.
      * assert (Hp : p == 0.5) by lra.
        rewrite (ease_high p Hhigh), (ease_high (1 - p)) by lra.
        rewrite Hp. reflexivity.
  - intros H0 Hpq H1.
    destruct (ease_range p) as [Hp0 Hp1]; [lra | lra |].
    destruct (ease_range q) as [Hq0 Hq1]; [lra | lra |].
    split; [exact Hp0 | split; [| exact Hq1]].
    destruct (Qlt_le_dec q 0.5) as [Hqlow | Hqhigh].
    + rewrite (ease_low p), (ease_low q Hqlow) by lra.
      pose proof (cube_le p q H0 Hpq). lra.
    + destruct (Qlt_le_dec p 0.5) as [Hplow | Hphigh].
      * rewrite (ease_low p Hplow), (ease_high q Hqhigh).
        pose proof (cube_le p 0.5 H0 (Qlt_le_weak _ _ Hplow)) as Hc1.
        assert (Hq0' : 0 <= 1 - q) by lra.
        assert (Hq1' : 1 - q <= 0.5) by lra.
        pose proof (cube_le (1 - q) 0.5 Hq0' Hq1') as Hc2.
        setoid_replace (0.5 * 0.5 * 0.5) with (1 # 8) in Hc1 by reflexivity.
        setoid_replace (0.5 * 0.5 * 0.5) with (1 # 8) in Hc2 by reflexivity.
        lra.
      * rewrite (ease_high p Hphigh), (ease_high q Hqhigh).
        assert (Hq0' : 0 <= 1 - q) by lra.
        assert (Hqp : 1 - q <= 1 - p) by lra.
        pose proof (cube_le (1 - q) (1 - p) Hq0' Hqp). lra.
Qed.

Lemma easeInOutCubic_shape_witness :
  0 <= easeInOutCubic 0.25
  /\ easeInOutCubic 0.25 <= easeInOutCubic 0.75
  /\ easeInOutCubic 0.75 <= 1.
Proof.
  apply (proj2 (proj2 (easeInOutCubic_shape 0.25 0.75)));
    discriminate.
Defined.

(* ------------------------------------------------------------------ *)
(** ** What the synthesized slide draws *)

Lemma drawAsset_In (op : CanvasOp) (ctx : Canvas) (asset : VisualAsset)
  (w h scale : Q) :
  In op (drawAsset ctx asset w h scale) ->
  In op ctx \/ exists x y rW rH, op = DrawImage asset x y rW rH.
Proof.
  unfold drawAsset.
  destruct ((assetW asset =? 0)%N || (assetH asset =? 0)%N); [now left |].
  intros H. apply in_app_or in H. destruct H as [H | [<- | []]].
  - now left.
  - right. eauto.
Qed.

(** X3.  During the one second of the synthesized slide on a canvas of
    width [w >= 0], a frame draws no image but the outgoing and the
    incoming asset, shifts the drawing horizontally only and by no more
    than the canvas width in either direction, and darkens with an
    overlay of alpha between 0 and 0.5 or with the opaque shadow
    edge. *)
Theorem synthTransitionFrame_bounds (cur next : VisualAsset)
  (w h tElapsed : Q) :
  0 <= w -> 0 <= tElapsed -> tElapsed < transitionDuration ->
  Forall (fun op =>
            match op with
            | DrawImage asset _ _ _ _ => asset = cur \/ asset = next
            | Translate dx dy => - w <= dx /\ dx <= w /\ dy == 0
            | FillRect (Rgba000 alpha) _ _ _ _ => 0 <= alpha /\ alpha <= 0.5
            | FillRect style _ _ _ _ => style = BlackShadowed 50 (-20)
            | FillText _ _ _ | GlobalAlpha _ => False
            | ClearRect _ _ _ _ | Save | Restore => True
            end)
    (synthTransitionFrame [] cur next w h tElapsed).
Proof.
  intros Hw H0 H1.
  unfold transitionDuration in H1.
  set (e := easeInOutCubic (tElapsed / transitionDuration)).
  assert (He : 0 <= e /\ e <= 1).
  { apply ease_range; unfold transitionDuration.
    - apply Qle_shift_div_l; [reflexivity | lra].
    - apply Qle_shift_div_r; [reflexivity | lra]. }
  destruct He as [He0 He1].
  assert (Hwe0 : 0 <= w * e) by (apply Qmult_le_0_compat; assumption).
  assert (Hwe1 : w * e <= w) by nra.
  unfold synthTransitionFrame, drawCinematicTransition. fold e.
  apply Forall_forall. intros op Hin.
  apply in_app_or in Hin. destruct Hin as [Hin | Hin].
  2: { destruct Hin as [<- | [<- | []]]; [reflexivity | exact I]. }
  apply drawAsset_In in Hin. destruct Hin as [Hin | (x & y & rW & rH & ->)].
  2: { now right. }
  apply in_app_or in Hin. destruct Hin as [Hin | Hin].
  2: { destruct Hin as [<- | [<- | []]]; [exact I |].
       split; [lra | split; [lra | reflexivity]]. }
  apply in_app_or in Hin. destruct Hin as [Hin | Hin].
  2: { destruct Hin as [<- | [<- | []]]; [| exact I]. split; lra. }
  apply drawAsset_In in Hin. destruct Hin as [Hin | (x & y & rW & rH & ->)].
  2: { now left. }
  apply in_app_or in Hin. destruct Hin as [Hin | Hin].
  2: { destruct Hin as [<- | [<- | []]]; [exact I |].
       split; [lra | split; [lra | reflexivity]]. }
  simpl in Hin. destruct Hin as [<- | []]. exact I.
Qed.

Lemma synthTransitionFrame_bounds_witness :
  Forall (fun op =>
            match op with
            | DrawImage asset _ _ _ _ =>
                asset = AVideo clipA \/ asset = AVideo clipZero
            | Translate dx dy => - 1280 <= dx /\ dx <= 1280 /\ dy == 0
            | FillRect (Rgba000 alpha) _ _ _ _ => 0 <= alpha /\ alpha <= 0.5
            | FillRect style _ _ _ _ => style = BlackShadowed 50 (-20)
            | FillText _ _ _ | GlobalAlpha _ => False
            | ClearRect _ _ _ _ | Save | Restore => True
            end)
    (synthTransitionFrame [] (AVideo clipA) (AVideo clipZero) 1280 720 0.25).
Proof.
  apply (synthTransitionFrame_bounds (AVideo clipA) (AVideo clipZero)
           1280 720 0.25); [discriminate | discriminate | reflexivity].
Defined.

(* ------------------------------------------------------------------ *)
(** ** The cover intro *)

Lemma div_half (x : Q) : x / 0.5 == 2 * x.
Proof. field. Qed.

Lemma div_three (x : Q) : x / introDuration == x * (1 # 3).
Proof. unfold introDuration. field. Qed.

(** X4.  A frame of the three-second cover intro clears the canvas and
    draws the cover at a scale that grows from 1.0 towards 1.05.  In the
    middle two seconds nothing else is drawn; in the first half second
    a black overlay of alpha [1 - 2 t] follows, in the last half second
    one of alpha [1 - 2 (3 - t)], so the alpha is always above 0 and at
    most 1. *)
Theorem introFrame_fades (ctx : Canvas) (cover : HTMLImageElement)
  (w h elapsed : Q) :
  0 <= elapsed -> elapsed < introDuration ->
  let scale := 1.0 + elapsed / introDuration * 0.05 in
  let drawn :=
    drawAsset (ctx ++ [ClearRect 0 0 w h]) (AImage cover) w h scale in
  (1 <= scale /\ scale < 1.05)
  /\ ((0.5 <= elapsed /\ elapsed <= 2.5) ->
      introFrame ctx cover w h elapsed = drawn)
  /\ ((elapsed < 0.5 \/ 2.5 < elapsed) ->
      exists alpha : Q,
        introFrame ctx cover w h elapsed
        = drawn ++ [FillRect (Rgba000 alpha) 0 0 w h]
        /\ 0 < alpha /\ alpha <= 1
        /\ (elapsed < 0.5 -> alpha == 1 - 2 * elapsed)
        /\ (2.5 < elapsed -> alpha == 1 - 2 * (3 - elapsed))).
Proof.
  intros H0 H3 scale drawn.
  assert (H3' : elapsed < 3) by (unfold introDuration in H3; lra).
  split.
  { unfold scale. rewrite div_three. split; lra. }
  unfold introFrame. fold scale. fold drawn.
  split.
  - intros [Hlo Hhi].
    destruct (Qlt_bool elapsed 0.5) eqn:E1;
      [apply Qlt_bool_true in E1; lra |].
    destruct (Qlt_bool (introDuration - 0.5) elapsed) eqn:E2;
      [apply Qlt_bool_true in E2; unfold introDuration in E2; lra |].
    reflexivity.
  - intros Hedge.
    destruct (Qlt_bool (introDuration - 0.5) elapsed) eqn:E2.
    + apply Qlt_bool_true in E2. unfold introDuration in E2.
      assert (Hop : (introDuration - elapsed) / 0.5 == 2 * (3 - elapsed))
        by (unfold introDuration; field).
      destruct (Qlt_bool ((introDuration - elapsed) / 0.5) 1) eqn:E3.
      * eexists. split; [reflexivity |]. rewrite Hop.
        split; [lra | split; [lra | split; intros; lra]].
      * apply Qlt_bool_false in E3. rewrite Hop in E3. lra.
    + apply Qlt_bool_false in E2. unfold introDuration in E2.
      destruct (Qlt_bool elapsed 0.5) eqn:E1.
      * apply Qlt_bool_true in E1.
        destruct (Qlt_bool (elapsed / 0.5) 1) eqn:E3.
        -- eexists. split; [reflexivity |]. rewrite div_half.
           split; [lra | split; [lra | split; intros; lra]].
        -- apply Qlt_bool_false in E3. rewrite div_half in E3. lra.
      * apply Qlt_bool_false in E1. lra.
Qed.

Lemma introFrame_fades_witness :
  introFrame [] (mkImage "cover" 1024 1024) 1280 720 1
  = drawAsset ([] ++ [ClearRect 0 0 1280 720])
      (AImage (mkImage "cover" 1024 1024)) 1280 720
      (1.0 + 1 / introDuration * 0.05).
Proof.
  apply (proj1 (proj2 (introFrame_fades [] (mkImage "cover" 1024 1024)
                         1280 720 1 ltac:(discriminate) eq_refl))).
  split; discriminate.
Defined.

(* ------------------------------------------------------------------ *)
(** ** Subtitle layout *)

Lemma fillLines_length (lines : list (option string)) (w h lh : Q)
  (total : nat) :
  forall index,
    List.length (fillLines lines w h lh total index) = List.length lines.
Proof.
  induction lines as [| line rest IH]; intros index; simpl;
    [| rewrite IH]; reflexivity.
Qed.

Lemma fillLines_nth (lines : list (option string)) (w h lh : Q)
  (total : nat) :
  forall index k line,
    nth_error lines k = Some line ->
    nth_error (fillLines lines w h lh total index) k
    = Some (FillText line (w / 2)
              (h - bottomMargin w h - padding
               - inject_Z (Z.of_nat (total - 1 - (index + k))) * lh)).
Proof.
  induction lines as [| first rest IH]; intros index [| k] line Hk;
    simpl in *; try discriminate.
  - inversion Hk; subst. now rewrite Nat.add_0_r.
  - rewrite (IH (S index) k line Hk).
    now replace (S index + k)%nat with (index + S k)%nat by lia.
Qed.

Lemma wrapLines_nonempty (measure : string -> Q) (limit : Q)
  (text : string) :
  (1 <= List.length (wrapLines measure limit text))%nat.
Proof.
  unfold wrapLines. destruct (split_chars text) as [| first rest];
    [simpl; lia |].
  destruct (wrapLoop measure limit rest [] first) as [ls c].
  rewrite length_map, length_app. simpl. lia.
Qed.

Lemma fontSize_positive (w h : Q) : 0 < fontSize w h * 1.4.
Proof. unfold fontSize. destruct (Qlt_bool w h); reflexivity. Qed.

(** X5.  [drawSubtitles] always draws at least one line, also for an
    empty narration.  Between [save] and [restore] it sets the opacity,
    fills one panel over the full canvas width, and draws each line
    once, centred at [w / 2], in order; line [k] of [n] has its baseline
    [n - 1 - k] line heights above that of the last line, which sits
    [padding] above the bottom margin.  So every line's box
    lies within the gradient, [padding] inside its top and bottom. *)
Theorem drawSubtitles_layout (env : Browser) (ctx : Canvas) (text : string)
  (w h opacity : Q) :
  let lines := subtitleLines env text w h in
  let n := List.length lines in
  let lineHeight := fontSize w h * 1.4 in
  let bottom := h - bottomMargin w h in
  (1 <= n)%nat
  /\ exists (bgY panelY panelH : Q) (texts : Canvas),
      drawSubtitles env ctx text w h opacity
      = ctx ++ [Save; GlobalAlpha opacity;
                FillRect (DarkGradient bgY bottom) 0 panelY w panelH]
            ++ texts ++ [Restore]
      /\ bgY == bottom - (ofNat n * lineHeight + 2 * padding)
      /\ panelY == bgY - 20
      /\ panelH == bottom - bgY + 40
      /\ List.length texts = n
      /\ forall k line,
          nth_error lines k = Some line ->
          exists y : Q,
            nth_error texts k = Some (FillText line (w / 2) y)
            /\ y == bottom - padding - ofNat (n - 1 - k) * lineHeight
            /\ bgY + padding <= y - lineHeight
            /\ y <= bottom - padding.
Proof.
  intros lines n lineHeight bottom.
  split; [apply wrapLines_nonempty |].
  unfold drawSubtitles. fold lines. fold n. fold lineHeight.
  eexists _, _, _, _.
  split; [reflexivity |].
  split; [unfold bottom, ofNat; ring |].
  split; [unfold bottom, ofNat; ring |].
  split; [unfold bottom, ofNat; ring |].
  split; [apply fillLines_length |].
  intros k line Hk.
  eexists. split; [apply fillLines_nth; exact Hk |].
  simpl (0 + k)%nat.
  assert (Hkn : (k < n)%nat) by (apply nth_error_Some; congruence).
  pose proof (fontSize_positive w h) as Hlh. fold lineHeight in Hlh.
  assert (Hidx : ofNat (n - 1 - k) + 1 <= ofNat n).
  { unfold ofNat.
    setoid_replace (inject_Z (Z.of_nat (n - 1 - k)) + 1)
      with (inject_Z (Z.of_nat (n - 1 - k) + 1))
      by (rewrite inject_Z_plus; reflexivity).
    rewrite <- Zle_Qle. lia. }
  pose proof (ofNat_nonneg (n - 1 - k)) as Hidx0.
  fold (ofNat (n - 1 - k)). fold (ofNat n).
  split; [unfold bottom; ring |].
  unfold bottom, padding in *.
  split; nra.
Qed.

(* ------------------------------------------------------------------ *)
(** ** Asset loading *)

Lemma preloadLoop_result (env : Browser) (total : Q) (rest : list Scene) :
  forall i visualAssets transitionAssets w,
  exists w',
    preloadLoop env total i rest visualAssets transitionAssets w
    = (Normal (visualAssets ++ visualAssetsOf env rest,
               transitionAssets ++ transitionAssetsOf env rest), w')
    /\ rendered w' = rendered w
    /\ console w' = console w
    /\ recorder w' = recorder w
    /\ audioCtx w' = audioCtx w.
Proof.
  induction rest as [| scene rest IH]; intros i va ta w; simpl.
  - exists w. unfold ret. now rewrite !app_nil_r.
  - unfold bind at 1. simpl.
    match goal with
    | |- context [preloadLoop _ _ _ _ ?va' ?ta' ?w1] =>
        destruct (IH (S i) va' ta' w1) as (w' & Hrun & Hr & Hc & Hrec & Ha)
    end.
    exists w'. rewrite Hrun, <- !app_assoc. simpl. auto.
Qed.

(** X6.  Asset loading never throws and never hangs, touches neither
    the recorded stream nor the console, and leaves one visual asset and
    one transition slot per scene, in scene order.  The visual asset of
    a scene is its video clip exactly when the scene's video URL is set
    and the clip loads; in every other case it is the image decoded from
    the scene's image data. *)
Theorem preload_tables (env : Browser) (total : Q) (scenes : list Scene)
  (w : World) :
  (exists w',
      preloadLoop env total 0 scenes [] [] w
      = (Normal (visualAssetsOf env scenes, transitionAssetsOf env scenes),
         w')
      /\ rendered w' = rendered w /\ console w' = console w)
  /\ List.length (visualAssetsOf env scenes) = List.length scenes
  /\ List.length (transitionAssetsOf env scenes) = List.length scenes
  /\ forall i scene,
      nth_error scenes i = Some scene ->
      nth_error (visualAssetsOf env scenes) i
      = Some (loadSceneVisual env scene)
      /\ nth_error (transitionAssetsOf env scenes) i
         = Some (loadSceneTransition env scene)
      /\ (forall vid,
             loadSceneVisual env scene = AVideo vid
             <-> truthyStr (videoUrl scene) = true
                 /\ videoLoad env (interpolate (videoUrl scene))
                    = LoadedData vid)
      /\ (forall img,
             loadSceneVisual env scene = AImage img ->
             img = loadImage env (imageData scene)).
Proof.
  split.
  { destruct (preloadLoop_result env total scenes 0 [] [] w)
      as (w' & Hrun & Hr & Hc & _).
    exists w'. auto. }
  split; [apply length_map | split; [apply length_map |]].
  intros i scene Hi.
  split; [now apply nth_error_map_some |].
  split; [now apply nth_error_map_some |].
  unfold loadSceneVisual, loadVideo.
  split.
  - intros vid.
    destruct (truthyStr (videoUrl scene)).
    + destruct (videoLoad env (interpolate (videoUrl scene))) as [v | |].
      * split; [intros H; inversion H; auto | intros [_ H]; now inversion H].
      * split; [discriminate | intros [_ H]; discriminate].
      * split; [discriminate | intros [_ H]; discriminate].
    + split; [discriminate | intros [H _]; discriminate].
  - intros img.
    destruct (truthyStr (videoUrl scene)).
    + destruct (videoLoad env (interpolate (videoUrl scene)));
        [discriminate | |]; intros H; now inversion H.
    + intros H. now inversion H.
Qed.

Lemma preload_tables_witness :
  nth_error (visualAssetsOf sampleBrowser (scenes storyWithBlockedVideo)) 1
  = Some (AVideo clipBlocked).
Proof.
  exact (proj1 (proj2 (proj2 (proj2
           (preload_tables sampleBrowser 2 (scenes storyWithBlockedVideo)
              initialWorld))) 1%nat (videoScene "two" "blocked.mp4")
           eq_refl)).
Defined.

(* ------------------------------------------------------------------ *)
(** ** The timeline of an export *)

Lemma records_bind_post {A B : Type} (c : M A) (k : A -> M B)
  (P : A -> Prop) (l1 l2 : list Segment) :
  records c l1 ->
  (forall w a, fst (c w) = Normal a -> P a) ->
  (forall a, P a -> records (k a) l2) ->
  records (bind c k) (l1 ++ l2).
Proof.
  intros Hc HP Hk w. unfold bind.
  destruct (Hc w) as (k1 & Hle1 & Hlog1 & Hall1).
  specialize (HP w).
  destruct (c w) as [[a | e |] w1] eqn:Ec; simpl in *.
  - specialize (Hall1 a eq_refl). subst k1.
    destruct (Hk a (HP a eq_refl) w1) as (k2 & Hle2 & Hlog2 & Hall2).
    exists (List.length l1 + k2)%nat.
    rewrite length_app, firstn_app_long, Hlog2, Hlog1, firstn_all.
    split; [lia | split; [now rewrite app_assoc |]].
    intros b Hb. rewrite (Hall2 b Hb). reflexivity.
  - exists k1. rewrite length_app, firstn_app_short by exact Hle1.
    split; [lia | split; [exact Hlog1 | discriminate]].
  - exists k1. rewrite length_app, firstn_app_short by exact Hle1.
    split; [lia | split; [exact Hlog1 | discriminate]].
Qed.

Lemma records_bind {A B : Type} (c : M A) (k : A -> M B)
  (l1 l2 : list Segment) :
  records c l1 -> (forall a, records (k a) l2) ->
  records (bind c k) (l1 ++ l2).
Proof.
  intros Hc Hk.
  apply (records_bind_post c k (fun _ => True)); auto.
Qed.

Lemma records_silent {A : Type} (c : M A) :
  (forall w, rendered (snd (c w)) = rendered w) -> records c [].
Proof.
  intros H w. exists 0%nat. simpl. rewrite app_nil_r. auto.
Qed.

Lemma records_stop {A : Type} (c : M A) (full : list Segment) :
  (forall w, rendered (snd (c w)) = rendered w) ->
  (forall w a, fst (c w) <> Normal a) ->
  records c full.
Proof.
  intros H Hn w. exists 0%nat. simpl. rewrite app_nil_r.
  split; [lia | split; [apply H |]].
  intros a Ha. now apply Hn in Ha.
Qed.

Lemma records_ret {A : Type} (a : A) : records (ret a) [].
Proof. now apply records_silent. Qed.

Lemma records_throw {A : Type} (e : Err) (full : list Segment) :
  records (@throw A e) full.
Proof. apply records_stop; [reflexivity | discriminate]. Qed.

Lemma records_hang {A : Type} (full : list Segment) :
  records (@hang A) full.
Proof. apply records_stop; [reflexivity | discriminate]. Qed.

Lemma records_onProgress (p : Q) (status : Status) :
  records (onProgress p status) [].
Proof. now apply records_silent. Qed.

Lemma records_console_error (e : Err) : records (console_error e) [].
Proof. now apply records_silent. Qed.

Lemma records_render (seg : Segment) : records (render seg) [seg].
Proof. intros w. exists 1%nat. simpl. auto. Qed.

Lemma records_play (vid : HTMLVideoElement) : records (play vid) [].
Proof.
  unfold play. destruct (vid_play vid);
    [apply records_throw | apply records_ret].
Qed.

Lemma records_resumeAudio (env : Browser) : records (resumeAudio env) [].
Proof.
  unfold resumeAudio. destruct (resume env);
    [apply records_throw | apply records_ret].
Qed.

Lemma records_preloadLoop (env : Browser) (total : Q) (rest : list Scene)
  (i : nat) (visualAssets : list VisualAsset)
  (transitionAssets : list (option HTMLVideoElement)) :
  records (preloadLoop env total i rest visualAssets transitionAssets) [].
Proof.
  apply records_silent. intros w.
  destruct (preloadLoop_result env total rest i visualAssets
              transitionAssets w) as (w' & Hrun & Hr & _).
  now rewrite Hrun.
Qed.

Lemma records_runTransition (i : nat) (nextAsset : option VisualAsset)
  (transitionVideo : option HTMLVideoElement) :
  records (runTransition i nextAsset transitionVideo)
    (transitionSegments i (transitionMode nextAsset transitionVideo)).
Proof.
  unfold runTransition.
  destruct (transitionMode nextAsset transitionVideo) as [| clip d | d];
    simpl.
  - apply records_ret.
  - apply (records_bind _ _ [] [_] (records_play clip)). intros _.
    destruct (loopExits d); [apply records_render | apply records_hang].
  - apply records_render.
Qed.

Lemma records_sceneIteration (env : Browser) (story : Story) (i : nat)
  (scene : Scene) :
  nth_error (scenes story) i = Some scene ->
  records
    (sceneIteration env (count (scenes story))
       (visualAssetsOf env (scenes story))
       (transitionAssetsOf env (scenes story)) i scene)
    (sceneSegments env story (i, scene)).
Proof.
  intros Hi. unfold sceneIteration.
  apply (records_bind _ _ [] _ (records_onProgress _ _)). intros _.
  apply (records_bind _ _ [] _).
  { destruct (audioData scene) as [bytes |]; [| apply records_ret].
    destruct (decodeAudioData env bytes);
      [apply records_console_error | apply records_ret]. }
  intros _.
  unfold visualAssetsOf at 1.
  rewrite (nth_error_map_some _ _ _ _ Hi).
  apply (records_bind _ _ [] _).
  { destruct (loadSceneVisual env scene);
      [apply records_ret | apply records_play]. }
  intros _.
  apply (records_bind _ _ [_] _ (records_render _)). intros _.
  apply records_runTransition.
Qed.

Lemma records_mainLoop (env : Browser) (story : Story) (rest : list Scene) :
  forall i,
    (forall k scene,
        nth_error rest k = Some scene ->
        nth_error (scenes story) (i + k) = Some scene) ->
    records
      (mainLoop env (count (scenes story))
         (visualAssetsOf env (scenes story))
         (transitionAssetsOf env (scenes story)) i rest)
      (flat_map (sceneSegments env story) (indexed i rest)).
Proof.
  induction rest as [| scene rest IH]; intros i Hsub.
  - apply records_ret.
  - change (indexed i (scene :: rest))
      with ((i, scene) :: indexed (S i) rest).
    cbn [flat_map mainLoop].
    apply records_bind.
    + apply records_sceneIteration.
      rewrite <- (Nat.add_0_r i). now apply Hsub.
    + intros _. apply IH. intros k s Hk.
      replace (S i + k)%nat with (i + S k)%nat by lia. now apply Hsub.
Qed.

Lemma records_outro (visualAssets : list VisualAsset) :
  records (outro visualAssets) (outroSegments visualAssets).
Proof.
  unfold outro, outroSegments.
  apply (records_bind _ _ [] _ (records_onProgress _ _)). intros _.
  destruct (nth_error visualAssets _); [| apply records_throw].
  apply (records_bind _ _ [_] [_] (records_render _)). intros _.
  apply records_render.
Qed.

Lemma records_pipeline (env : Browser) (story : Story)
  (customCover : option string) :
  records (pipeline env story customCover) (timeline env story customCover).
Proof.
  unfold pipeline, timeline.
  apply (records_bind_post _ _
           (fun coverAsset =>
              coverAsset
              = if hasCover story customCover
                then Some (loadCover env
                             (interpolate
                                (orStr customCover (coverImage story))))
                else None) [] _).
  { unfold hasCover.
    destruct (truthyStr (orStr customCover (coverImage story))).
    - apply (records_bind _ _ [] [] (records_onProgress _ _)). intros _.
      apply records_ret.
    - apply records_ret. }
  { intros w a. unfold hasCover.
    destruct (truthyStr (orStr customCover (coverImage story))); simpl;
      intros H; now inversion H. }
  intros coverAsset ->.
  apply (records_bind_post _ _
           (fun assets =>
              assets = (visualAssetsOf env (scenes story),
                        transitionAssetsOf env (scenes story))) [] _).
  { apply records_preloadLoop. }
  { intros w a.
    destruct (preloadLoop_result env (count (scenes story)) (scenes story)
                0 [] [] w) as (w' & Hrun & _).
    rewrite Hrun. simpl. intros H. now inversion H. }
  intros assets ->.
  apply (records_bind _ _ [] _ (records_resumeAudio env)). intros _.
  apply records_bind.
  { unfold introSegments.
    destruct (hasCover story customCover); [| apply records_ret].
    apply (records_bind _ _ [_] [_] (records_render _)). intros _.
    apply records_render. }
  intros _.
  apply records_bind.
  { apply records_mainLoop. intros k scene Hk. exact Hk. }
  intros _. apply records_outro.
Qed.

Lemma transitionSegments_length (env : Browser) (story : Story) (i : nat) :
  List.length (transitionSegments i (transitionAfter env story i))
  = if (i + 1 <? List.length (scenes story))%nat then 1%nat else 0%nat.
Proof.
  unfold transitionAfter, transitionMode.
  destruct (nth_error (visualAssetsOf env (scenes story)) (i + 1))
    as [next |] eqn:En.
  - assert (Hlt : (i + 1 < List.length (scenes story))%nat).
    { rewrite <- (length_map (loadSceneVisual env)).
      apply nth_error_Some. unfold visualAssetsOf in En. congruence. }
    apply Nat.ltb_lt in Hlt. rewrite Hlt.
    now destruct (match nth_error _ i with Some t => t | None => None end).
  - apply nth_error_None in En. unfold visualAssetsOf in En.
    rewrite length_map in En.
    apply Nat.ltb_ge in En. now rewrite En.
Qed.

Lemma sceneSegments_count (env : Browser) (story : Story)
  (rest : list Scene) :
  forall i,
    (i + List.length rest = List.length (scenes story))%nat ->
    List.length (flat_map (sceneSegments env story) (indexed i rest))
    = (List.length rest + (List.length rest - 1))%nat.
Proof.
  induction rest as [| scene rest IH]; intros i Hlen; [reflexivity |].
  change (indexed i (scene :: rest)) with ((i, scene) :: indexed (S i) rest).
  cbn [flat_map sceneSegments List.length]. rewrite length_app.
  cbn [List.length] in Hlen.
  rewrite (IH (S i)) by lia.
  cbn [List.length]. rewrite transitionSegments_length.
  destruct (Nat.ltb_spec (i + 1) (List.length (scenes story)));
    destruct rest; cbn [List.length] in *; lia.
Qed.

(* ------------------------------------------------------------------ *)
(** ** Which exports complete *)

Lemma completes_eq {A : Type} (c : M A) (b b' : bool) (P : A -> Prop) :
  b = b' -> completes c b P -> completes c b' P.
Proof. now intros ->. Qed.

Lemma completes_bind {A B : Type} (c : M A) (k : A -> M B) (b1 b2 : bool)
  (P : A -> Prop) (R : B -> Prop) :
  completes c b1 P ->
  (forall a, P a -> completes (k a) b2 R) ->
  completes (bind c k) (b1 && b2) R.
Proof.
  intros Hc Hk w. specialize (Hc w). unfold bind.
  destruct b1; simpl.
  - destruct Hc as (a & Ha & HP).
    destruct (c w) as [[a' | e |] w1]; simpl in Ha; try discriminate.
    inversion Ha; subst a'. apply (Hk a HP w1).
  - destruct (c w) as [[a | e |] w1]; simpl in *;
      [now specialize (Hc a) | discriminate | discriminate].
Qed.

Lemma completes_ret {A : Type} (a : A) :
  completes (ret a) true (fun x => x = a).
Proof. intros w. now exists a. Qed.

Lemma completes_unit (c : M unit) :
  (forall w, fst (c w) = Normal tt) -> completes c true (fun _ => True).
Proof. intros H w. exists tt. auto. Qed.

Lemma completes_throw {A : Type} (e : Err) (P : A -> Prop) :
  completes (@throw A e) false P.
Proof. intros w a. discriminate. Qed.

Lemma completes_hang {A : Type} (P : A -> Prop) :
  completes (@hang A) false P.
Proof. intros w a. discriminate. Qed.

Lemma completes_play (vid : HTMLVideoElement) :
  completes (play vid)
    (match vid_play vid with None => true | Some _ => false end)
    (fun _ => True).
Proof.
  unfold play. destruct (vid_play vid);
    [apply completes_throw | now apply completes_unit].
Qed.

Lemma completes_resumeAudio (env : Browser) :
  completes (resumeAudio env)
    (match resume env with None => true | Some _ => false end)
    (fun _ => True).
Proof.
  unfold resumeAudio. destruct (resume env);
    [apply completes_throw | now apply completes_unit].
Qed.

Lemma completes_runTransition (i : nat) (nextAsset : option VisualAsset)
  (transitionVideo : option HTMLVideoElement) :
  completes (runTransition i nextAsset transitionVideo)
    (transitionRuns (transitionMode nextAsset transitionVideo))
    (fun _ => True).
Proof.
  unfold runTransition, transitionRuns.
  destruct (transitionMode nextAsset transitionVideo) as [| clip d | d].
  - now apply completes_unit.
  - apply (completes_bind _ _ _ _ _ _ (completes_play clip)). intros _ _.
    destruct (loopExits d);
      [now apply completes_unit | apply completes_hang].
  - now apply completes_unit.
Qed.

Lemma completes_sceneIteration (env : Browser) (story : Story) (i : nat)
  (scene : Scene) :
  nth_error (scenes story) i = Some scene ->
  completes
    (sceneIteration env (count (scenes story))
       (visualAssetsOf env (scenes story))
       (transitionAssetsOf env (scenes story)) i scene)
    (sceneRuns env story (i, scene)) (fun _ => True).
Proof.
  intros Hi. unfold sceneIteration, sceneRuns.
  unfold visualAssetsOf at 1.
  rewrite (nth_error_map_some _ _ _ _ Hi).
  apply (completes_eq _
           (true && (true && (assetPlays (loadSceneVisual env scene)
                              && (true && transitionRuns
                                            (transitionAfter env story i)))))).
  { reflexivity. }
  apply (completes_bind _ _ _ _ (fun _ => True)).
  { now apply completes_unit. }
  intros _ _.
  apply (completes_bind _ _ _ _ (fun _ => True)).
  { apply completes_unit. intros w.
    destruct (audioData scene) as [bytes |]; [| reflexivity].
    now destruct (decodeAudioData env bytes). }
  intros _ _.
  apply (completes_bind _ _ _ _ (fun _ => True)).
  { unfold assetPlays. destruct (loadSceneVisual env scene);
      [now apply completes_unit | apply completes_play]. }
  intros _ _.
  apply (completes_bind _ _ _ _ (fun _ => True)).
  { now apply completes_unit. }
  intros _ _. apply completes_runTransition.
Qed.

Lemma completes_mainLoop (env : Browser) (story : Story)
  (rest : list Scene) :
  forall i,
    (forall k scene,
        nth_error rest k = Some scene ->
        nth_error (scenes story) (i + k) = Some scene) ->
    completes
      (mainLoop env (count (scenes story))
         (visualAssetsOf env (scenes story))
         (transitionAssetsOf env (scenes story)) i rest)
      (forallb (sceneRuns env story) (indexed i rest)) (fun _ => True).
Proof.
  induction rest as [| scene rest IH]; intros i Hsub.
  - now apply completes_unit.
  - change (indexed i (scene :: rest))
      with ((i, scene) :: indexed (S i) rest).
    cbn [forallb mainLoop].
    apply (completes_bind _ _ _ _ (fun _ => True)).
    + apply completes_sceneIteration.
      rewrite <- (Nat.add_0_r i). now apply Hsub.
    + intros _ _. apply IH. intros k s Hk.
      replace (S i + k)%nat with (i + S k)%nat by lia. now apply Hsub.
Qed.

Lemma completes_outro (visualAssets : list VisualAsset) :
  completes (outro visualAssets)
    (negb (Nat.eqb (List.length visualAssets) 0)) (fun _ => True).
Proof.
  unfold outro.
  apply (completes_eq _
           (true && negb (Nat.eqb (List.length visualAssets) 0)));
    [reflexivity |].
  apply (completes_bind _ _ _ _ (fun _ => True)).
  { now apply completes_unit. }
  intros _ _.
  destruct (nth_error visualAssets (List.length visualAssets - 1))
    as [lastAsset |] eqn:E.
  - assert (Hlen : List.length visualAssets <> 0%nat).
    { intros H0. apply length_zero_iff_nil in H0. subst.
      discriminate. }
    apply Nat.eqb_neq in Hlen. rewrite Hlen.
    now apply completes_unit.
  - apply nth_error_None in E.
    assert (Hlen : List.length visualAssets = 0%nat) by lia.
    rewrite Hlen. apply completes_throw.
Qed.

Lemma completes_pipeline (env : Browser) (story : Story)
  (customCover : option string) :
  completes (pipeline env story customCover) (exportable env story)
    (fun _ => True).
Proof.
  unfold pipeline, exportable.
  apply (completes_eq _
           (true
            && (true
                && ((match resume env with None => true | Some _ => false end)
                    && (true
                        && (forallb (sceneRuns env story)
                              (indexed 0 (scenes story))
                            && negb (Nat.eqb (List.length (scenes story))
                                       0))))))).
  { simpl. now rewrite andb_assoc. }
  apply (completes_bind _ _ _ _ (fun _ => True)).
  { intros w.
    destruct (truthyStr (orStr customCover (coverImage story)));
      eexists; split; [reflexivity | exact I | reflexivity | exact I]. }
  intros coverAsset _.
  apply (completes_bind _ _ _ _
           (fun assets =>
              assets = (visualAssetsOf env (scenes story),
                        transitionAssetsOf env (scenes story)))).
  { intros w.
    destruct (preloadLoop_result env (count (scenes story)) (scenes story)
                0 [] [] w) as (w' & Hrun & _).
    rewrite Hrun. eexists. split; reflexivity. }
  intros assets ->.
  apply (completes_bind _ _ _ _ _ _ (completes_resumeAudio env)).
  intros _ _.
  apply (completes_bind _ _ _ _ (fun _ => True)).
  { apply completes_unit. intros w. now destruct coverAsset. }
  intros _ _.
  apply (completes_bind _ _ _ _ (fun _ => True)).
  { apply completes_mainLoop. intros k scene Hk. exact Hk. }
  intros _ _.
  apply (completes_eq _ _ _ _ (f_equal (fun n => negb (Nat.eqb n 0))
                                  (length_map (loadSceneVisual env)
                                     (scenes story)))
           (completes_outro _)).
Qed.

Lemma generateStoryVideo_resolves (env : Browser) (story : Story)
  (customCover : option string) (w : World) :
  (exists blob,
      fst (generateStoryVideo env story customCover w) = Resolved blob)
  <-> exportable env story = true.
Proof.
  rewrite generateStoryVideo_cases.
  pose proof (completes_pipeline env story customCover (started w)) as Hc.
  destruct (exportable env story).
  - destruct Hc as (a & Ha & _).
    destruct (pipeline env story customCover (started w))
      as [[[] | e |] w']; simpl in *; try discriminate.
    split; [reflexivity | intros _; eauto].
  - split; [| discriminate].
    intros [blob Hb].
    destruct (pipeline env story customCover (started w))
      as [[[] | e |] w']; simpl in *; try discriminate.
    now specialize (Hc tt).
Qed.

Lemma generateStoryVideo_resolved_parts (env : Browser) (story : Story)
  (customCover : option string) (w : World) (blob : Blob) :
  fst (generateStoryVideo env story customCover w) = Resolved blob ->
  blob_parts blob = rendered w ++ timeline env story customCover
  /\ rendered (snd (generateStoryVideo env story customCover w))
     = blob_parts blob
  /\ blob_type blob = beforeSemicolon (selectMimeType env)
  /\ recorder (snd (generateStoryVideo env story customCover w))
     = RecInactive
  /\ audioCtx (snd (generateStoryVideo env story customCover w))
     = AudioClosed.
Proof.
  rewrite generateStoryVideo_cases.
  destruct (records_pipeline env story customCover (started w))
    as (k & Hle & Hlog & Hall).
  destruct (pipeline env story customCover (started w))
    as [[[] | e |] w'] eqn:Ep; simpl in *; try discriminate.
  intros Hres. inversion Hres; subst blob; simpl.
  rewrite (Hall tt eq_refl), firstn_all in Hlog. auto.
Qed.

(** X7.  When an export completes, the blob holds exactly the timeline:
    the intro and its black pause when there is a cover, then for each
    scene in order its segment and, unless it is the last, its
    transition, then the outro and the black hold.  For [N] scenes that
    is [N] scene segments and [N - 1] transitions, and [N >= 1]. *)
Theorem completed_export_timeline (env : Browser) (story : Story)
  (customCover : option string) (w : World) (blob : Blob) :
  let out := generateStoryVideo env story customCover w in
  let n := List.length (scenes story) in
  fst out = Resolved blob ->
  blob_parts blob = rendered w ++ timeline env story customCover
  /\ rendered (snd out) = blob_parts blob
  /\ (1 <= n)%nat
  /\ List.length (timeline env story customCover)
     = ((if hasCover story customCover then 2 else 0)
        + n + (n - 1) + 2)%nat.
Proof.
  intros out n Hres. subst out.
  destruct (generateStoryVideo_resolved_parts _ _ _ _ _ Hres)
    as (Hparts & Hrend & _).
  split; [exact Hparts | split; [exact Hrend |]].
  assert (Hex : exportable env story = true)
    by (apply (generateStoryVideo_resolves env story customCover w); eauto).
  unfold exportable in Hex.
  apply andb_true_iff in Hex. destruct Hex as [_ Hn].
  apply negb_true_iff, Nat.eqb_neq in Hn. fold n in Hn.
  split; [lia |].
  unfold timeline. rewrite !length_app.
  rewrite (sceneSegments_count env story (scenes story) 0 eq_refl).
  fold n.
  unfold introSegments, outroSegments, visualAssetsOf.
  rewrite length_map. fold n.
  destruct (nth_error (map (loadSceneVisual env) (scenes story)) (n - 1))
    eqn:El.
  - destruct (hasCover story customCover); simpl; lia.
  - apply nth_error_None in El. rewrite length_map in El. fold n in El. lia.
Qed.

Lemma completed_export_timeline_witness :
  List.length (timeline sampleBrowser storyWithClip None) = 5%nat.
Proof.
  refine (proj2 (proj2 (proj2
            (completed_export_timeline sampleBrowser storyWithClip None
               initialWorld
               (mkBlob "video/webm"
                  (rendered (snd (generateStoryVideo sampleBrowser
                                    storyWithClip None initialWorld))))
               _)))).
  vm_compute. reflexivity.
Defined.

(** X8.  However an export ends, what it pushed to the recorder is a
    prefix of the timeline: no segment is skipped, repeated or out of
    order. *)
Theorem export_renders_timeline_prefix (env : Browser) (story : Story)
  (customCover : option string) (w : World) :
  exists k : nat,
    rendered (snd (generateStoryVideo env story customCover w))
    = rendered w ++ firstn k (timeline env story customCover).
Proof.
  rewrite generateStoryVideo_cases.
  destruct (records_pipeline env story customCover (started w))
    as (k & Hle & Hlog & Hall).
  exists k.
  destruct (pipeline env story customCover (started w))
    as [[[] | e |] w']; exact Hlog.
Qed.

Lemma indexed_In {A : Type} (l : list A) :
  forall start i (a : A),
    In (i, a) (indexed start l) ->
    (start <= i)%nat /\ nth_error l (i - start) = Some a.
Proof.
  induction l as [| x l IH]; intros start i a Hin; [destruct Hin |].
  change (indexed start (x :: l)) with ((start, x) :: indexed (S start) l)
    in Hin.
  destruct Hin as [Heq | Hin].
  - inversion Heq; subst. rewrite Nat.sub_diag. auto.
  - destruct (IH _ _ _ Hin) as [Hle Hnth].
    split; [lia |].
    replace (i - start)%nat with (S (i - S start)) by lia. exact Hnth.
Qed.

Lemma indexed_nth {A : Type} (l : list A) :
  forall start i (a : A),
    nth_error l i = Some a -> In ((start + i)%nat, a) (indexed start l).
Proof.
  induction l as [| x l IH]; intros start [| i] a Hi; simpl in Hi;
    try discriminate;
    change (indexed start (x :: l)) with ((start, x) :: indexed (S start) l).
  - inversion Hi; subst. rewrite Nat.add_0_r. now left.
  - right. replace (start + S i)%nat with (S start + i)%nat by lia.
    now apply IH.
Qed.

(** X9.  An export completes with a blob exactly when the story has at
    least one scene, the audio context resumes, every scene shown from a
    video clip has a clip that plays, and every transition clip between
    two scenes plays and has a duration that is reached (neither
    infinite nor NaN).  A cover, a failed image or audio decode, or a
    clip that fails to load never prevents it. *)
Theorem export_resolves_iff_exportable (env : Browser) (story : Story)
  (customCover : option string) (w : World) :
  (exists blob,
      fst (generateStoryVideo env story customCover w) = Resolved blob)
  <-> (resume env = None
       /\ (forall i scene,
              nth_error (scenes story) i = Some scene ->
              assetPlays (loadSceneVisual env scene) = true
              /\ transitionRuns (transitionAfter env story i) = true)
       /\ scenes story <> []).
Proof.
  rewrite generateStoryVideo_resolves. unfold exportable.
  rewrite !andb_true_iff, forallb_forall, negb_true_iff, Nat.eqb_neq.
  split.
  - intros [[Hres Hall] Hn].
    split; [now destruct (resume env) |].
    split; [| intros H0; now rewrite H0 in Hn].
    intros i scene Hi.
    pose proof (indexed_nth (scenes story) 0 i scene Hi) as Hin.
    specialize (Hall _ Hin). simpl in Hall.
    now apply andb_true_iff in Hall.
  - intros (Hres & Hall & Hn).
    split; [split; [now rewrite Hres |] |].
    + intros [i scene] Hin. apply indexed_In in Hin.
      destruct Hin as [_ Hnth]. rewrite Nat.sub_0_r in Hnth.
      destruct (Hall i scene Hnth) as [H1 H2].
      simpl. now rewrite H1, H2.
    + intros H0. apply length_zero_iff_nil in H0. contradiction.
Qed.

(** X10.  A story with at least one scene, none of which names a video
    clip or a transition clip, is exported to the end on every host
    whose audio context resumes: still images, missing or undecodable
    audio and the synthesized slides cannot fail. *)
Theorem still_image_story_exports (env : Browser) (story : Story)
  (customCover : option string) (w : World) :
  scenes story <> [] ->
  resume env = None ->
  (forall scene, In scene (scenes story) ->
                 truthyStr (videoUrl scene) = false
                 /\ truthyStr (transitionVideoUrl scene) = false) ->
  exists blob,
    fst (generateStoryVideo env story customCover w) = Resolved blob
    /\ blob_parts blob = rendered w ++ timeline env story customCover.
Proof.
  intros Hne Hres Hstill.
  assert (Hex : exportable env story = true).
  { unfold exportable. rewrite Hres. simpl.
    apply andb_true_iff. split.
    - apply forallb_forall. intros [i scene] Hin.
      apply indexed_In in Hin. destruct Hin as [_ Hnth].
      rewrite Nat.sub_0_r in Hnth.
      destruct (Hstill scene (nth_error_In _ _ Hnth)) as [Hv Ht].
      unfold sceneRuns, loadSceneVisual. rewrite Hv. simpl.
      unfold transitionAfter, transitionAssetsOf.
      rewrite (nth_error_map_some _ _ _ _ Hnth).
      unfold loadSceneTransition. rewrite Ht.
      now destruct (nth_error _ (i + 1)).
    - destruct (scenes story); [congruence | reflexivity]. }
  apply (generateStoryVideo_resolves env story customCover w) in Hex.
  destruct Hex as [blob Hblob].
  exists blob. split; [exact Hblob |].
  now apply generateStoryVideo_resolved_parts.
Qed.

Lemma still_image_story_exports_witness :
  exists blob,
    fst (generateStoryVideo sampleBrowser
           (mkStory Tall9x16 [imageScene "one" None; imageScene "two" None]
              (Some "cover"%string)) None initialWorld) = Resolved blob
    /\ blob_parts blob
       = rendered initialWorld
         ++ timeline sampleBrowser
              (mkStory Tall9x16
                 [imageScene "one" None; imageScene "two" None]
                 (Some "cover"%string)) None.
Proof.
  apply still_image_story_exports; [discriminate | reflexivity |].
  intros scene [<- | [<- | []]]; split; reflexivity.
Defined.

(** X11.  The blob of a completed export is typed [video/mp4] when the
    host records either of the two MP4 types and [video/webm]
    otherwise, never with codec parameters; so the caller's download
    gets the extension [mp4] exactly when the host records MP4.  By
    then the recorder is stopped and the audio context closed. *)
Theorem completed_export_blob_type (env : Browser) (story : Story)
  (customCover : option string) (w : World) (blob : Blob) :
  let out := generateStoryVideo env story customCover w in
  let mp4 := isTypeSupported env mp4_h264_aac
             || isTypeSupported env mp4_generic in
  fst out = Resolved blob ->
  blob_type blob = (if mp4 then "video/mp4" else "video/webm")%string
  /\ downloadExtension blob = (if mp4 then "mp4" else "webm")%string
  /\ recorder (snd out) = RecInactive
  /\ audioCtx (snd out) = AudioClosed.
Proof.
  intros out mp4 Hres. subst out mp4.
  destruct (generateStoryVideo_resolved_parts _ _ _ _ _ Hres)
    as (_ & _ & Htype & Hrec & Haudio).
  split; [| split; [| split; assumption]].
  - rewrite Htype. unfold selectMimeType.
    destruct (isTypeSupported env mp4_h264_aac); [reflexivity |].
    destruct (isTypeSupported env mp4_generic); [reflexivity |].
    destruct (isTypeSupported env webm_vp9); reflexivity.
  - unfold downloadExtension. rewrite Htype. unfold selectMimeType.
    destruct (isTypeSupported env mp4_h264_aac); [reflexivity |].
    destruct (isTypeSupported env mp4_generic); [reflexivity |].
    destruct (isTypeSupported env webm_vp9); reflexivity.
Qed.

Lemma completed_export_blob_type_witness :
  downloadExtension
    (mkBlob "video/webm"
       (rendered (snd (generateStoryVideo sampleBrowser storyWithClip None
                         initialWorld))))
  = "webm"%string.
Proof.
  refine (proj1 (proj2
            (completed_export_blob_type sampleBrowser storyWithClip None
               initialWorld
               (mkBlob "video/webm"
                  (rendered (snd (generateStoryVideo sampleBrowser
                                    storyWithClip None initialWorld))))
               _))).
  vm_compute. reflexivity.
Defined.

(* ------------------------------------------------------------------ *)
(** ** Cover titles *)

Section TitleWrapping.

Variable measure : string -> Q.
Variable limit : Q.

(** What the title loop guarantees of a line. *)
Let fine (line : string) : Prop :=
  line <> EmptyString
  /\ (String.length line = 1%nat \/ measure line <= limit).

Lemma append_nonempty_r (a b : string) :
  b <> EmptyString -> (a ++ b)%string <> EmptyString.
Proof.
  intros Hb H. destruct a; simpl in H; [contradiction | discriminate].
Qed.

Lemma single_nonempty (word : string) :
  String.length word = 1%nat -> word <> EmptyString.
Proof. intros H ->. discriminate. Qed.

Lemma titleWrapLoop_spec (words : list string) :
  forall i line lines ls l,
    titleWrapLoop measure limit words i line lines = (ls, l) ->
    Forall (fun word => String.length word = 1%nat) words ->
    (i = 0%nat -> line = EmptyString) ->
    (i <> 0%nat -> fine line) ->
    Forall fine lines ->
    concatLines (ls ++ [l])
    = (concatLines (lines ++ [line]) ++ concatLines words)%string
    /\ Forall fine ls
    /\ (words <> [] \/ i <> 0%nat -> fine l).
Proof.
  induction words as [| word rest IH];
    intros i line lines ls l Hrun Hwords H0 Hpos Hlines; simpl in Hrun.
  - inversion Hrun; subst. simpl. rewrite append_empty_r.
    split; [reflexivity | split; [exact Hlines |]].
    intros [H | H]; [congruence | auto].
  - inversion Hwords as [| ? ? Hword Hrest]; subst.
    destruct (Qlt_bool limit (measure (line ++ word)) && negb (Nat.eqb i 0))
      eqn:E.
    + apply andb_true_iff in E. destruct E as [_ Ei].
      apply negb_true_iff, Nat.eqb_neq in Ei.
      destruct (IH (S i) word (lines ++ [line]) ls l Hrun Hrest)
        as (Hcat & Hls & Hl).
      * discriminate.
      * intros _. split; [now apply single_nonempty | now left].
      * apply Forall_app. split; [exact Hlines |].
        constructor; [now apply Hpos | constructor].
      * split; [| split; [exact Hls | intros _; apply Hl; now right]].
        rewrite Hcat. simpl.
        rewrite !concatLines_snoc, !append_assoc. reflexivity.
    + assert (Hfine : fine (line ++ word)%string).
      { split; [apply append_nonempty_r; now apply single_nonempty |].
        apply andb_false_iff in E. destruct E as [E | E].
        - right. now apply Qlt_bool_false.
        - apply negb_false_iff, Nat.eqb_eq in E.
          rewrite (H0 E). simpl. now left. }
      destruct (IH (S i) (line ++ word)%string lines ls l Hrun Hrest)
        as (Hcat & Hls & Hl).
      * discriminate.
      * intros _. exact Hfine.
      * exact Hlines.
      * split; [| split; [exact Hls | intros _; apply Hl; now right]].
        rewrite Hcat. simpl.
        rewrite !concatLines_snoc, !append_assoc. reflexivity.
Qed.

(** X12.  The title is wrapped into at least one line, and the lines
    joined in order are the title, also for the empty title, whose only
    line is empty.  For any other title no line is empty, and every line
    of more than one character measures at most the limit. *)
Theorem titleLines_partition (title : string) :
  (1 <= List.length (titleLines measure limit title))%nat
  /\ concatLines (titleLines measure limit title) = title
  /\ titleLines measure limit EmptyString = [EmptyString]
  /\ (title <> EmptyString ->
      Forall (fun line =>
                line <> EmptyString
                /\ (String.length line = 1%nat \/ measure line <= limit))
        (titleLines measure limit title)).
Proof.
  unfold titleLines.
  destruct (titleWrapLoop measure limit (split_chars title) 0 EmptyString [])
    as [ls l] eqn:Erun.
  destruct (titleWrapLoop_spec (split_chars title) 0 EmptyString [] ls l
              Erun (split_chars_single title))
    as (Hcat & Hls & Hl); [reflexivity | congruence | constructor |].
  split; [rewrite length_app; simpl; lia |].
  split; [rewrite Hcat; simpl; apply concatLines_split_chars |].
  split; [reflexivity |].
  intros Hne. apply Forall_app. split; [exact Hls |].
  constructor; [| constructor]. apply Hl. left.
  destruct title; [congruence | discriminate].
Qed.

End TitleWrapping.

Lemma titleLines_partition_witness :
  Forall (fun line =>
            line <> EmptyString
            /\ (String.length line = 1%nat
                \/ measureText sampleBrowser (titleFontSize Wide16x9) line
                   <= titleMaxWidth Wide16x9))
    (titleLines (measureText sampleBrowser (titleFontSize Wide16x9))
       (titleMaxWidth Wide16x9) "The borrowed arrows of the straw boats").
Proof.
  apply (proj2 (proj2 (proj2
           (titleLines_partition
              (measureText sampleBrowser (titleFontSize Wide16x9))
              (titleMaxWidth Wide16x9)
              "The borrowed arrows of the straw boats")))).
  discriminate.
Defined.

(** X13.  For an image with positive sides, the cover-style fit of
    [addTitleToCover] gives the rectangle that [drawAsset] computes at
    scale 1.0: the two implementations place the image alike. *)
Theorem titleCoverFit_agrees_with_drawAsset (imgW imgH : N)
  (width height : Q) :
  imgW <> 0%N -> imgH <> 0%N ->
  sameRect (titleCoverFit imgW imgH width height)
    (coverFit imgW imgH width height 1.0).
Proof.
  intros Hw Hh.
  destruct (assetRatio_finite imgW imgH Hw Hh) as [Hr Hpos].
  set (r := inject_Z (Z.of_N imgW) / inject_Z (Z.of_N imgH)) in *.
  unfold titleCoverFit, coverFit, sameRect. rewrite Hr.
  clearbody r.
  destruct (Js.gt (Js.Fin r) (Js.div (Js.Fin width) (Js.Fin height))).
  - simpl. do 8 eexists.
    split; [reflexivity | split; [reflexivity |]].
    split; [field | split; [field | split; ring]].
  - rewrite (Js_div_finite width r) by lra.
    simpl. do 8 eexists.
    split; [reflexivity | split; [reflexivity |]].
    split; [field | split; [field; lra | split; [ring | field; lra]]].
Qed.

Lemma titleCoverFit_agrees_with_drawAsset_witness :
  sameRect
    (titleCoverFit 1024 1024 (coverWidth Wide16x9) (coverHeight Wide16x9))
    (coverFit 1024 1024 (coverWidth Wide16x9) (coverHeight Wide16x9) 1.0).
Proof.
  apply titleCoverFit_agrees_with_drawAsset; discriminate.
Defined.

(* ------------------------------------------------------------------ *)
(** ** Data URLs *)

Lemma afterPrefix_app (pre s : string) :
  afterPrefix pre (pre ++ s) = Some s.
Proof.
  induction pre as [| c pre IH]; simpl.
  - now destruct s.
  - now rewrite Ascii.eqb_refl.
Qed.

Lemma afterWord_app (sub rest : string) :
  allWordChars sub = true -> afterWord (sub ++ rest) = afterWord rest.
Proof.
  induction sub as [| c sub IH]; simpl; [reflexivity |].
  intros H. apply andb_true_iff in H. destruct H as [Hc Hsub].
  rewrite Hc. now apply IH.
Qed.

Lemma length_append (a b : string) :
  String.length (a ++ b) = (String.length a + String.length b)%nat.
Proof. induction a as [| c a IH]; simpl; [| rewrite IH]; reflexivity. Qed.

Lemma afterPrefix_head_differs (c d : ascii) (pre s : string) :
  Ascii.eqb c d = false -> afterPrefix (String c pre) (String d s) = None.
Proof. intros H. simpl. now rewrite H. Qed.

(** X14.  Stripping the data-URL prefix returns the payload of any
    string [data:image/<subtype>;base64,<payload>] whose subtype is a
    non-empty run of word characters, and leaves alone every string that
    does not start with [data:image/], such as bare base64.  So the cover
    that the exporter loads from its data URL is the one that was
    stored. *)
Theorem stripDataUrl_round_trip (env : Browser) (subtype payload : string) :
  (subtype <> EmptyString -> allWordChars subtype = true ->
   stripDataUrl ("data:image/" ++ subtype ++ ";base64," ++ payload) = payload)
  /\ (forall s, afterPrefix "data:image/" s = None -> stripDataUrl s = s)
  /\ stripDataUrl (img_src (loadCover env payload)) = payload
  /\ stripDataUrl (img_src (loadImage env (Some payload))) = payload.
Proof.
  assert (Hstrip : forall sub,
             sub <> EmptyString -> allWordChars sub = true ->
             stripDataUrl ("data:image/" ++ sub ++ ";base64," ++ payload)
             = payload).
  { intros sub Hne Hword. unfold stripDataUrl.
    rewrite afterPrefix_app, (afterWord_app _ _ Hword).
    change (afterWord (";base64," ++ payload))
      with (";base64," ++ payload)%string.
    rewrite (length_append sub).
    destruct (Nat.ltb_spec (String.length (";base64," ++ payload))
                (String.length sub
                 + String.length (";base64," ++ payload))) as [_ | Hge].
    - now rewrite afterPrefix_app.
    - destruct sub; [congruence | simpl in Hge; lia]. }
  split; [apply Hstrip |].
  split.
  { intros s Hs. unfold stripDataUrl. now rewrite Hs. }
  split.
  - unfold loadCover.
    destruct (imageLoad env _); simpl img_src;
      apply (Hstrip "jpeg"%string); [discriminate | reflexivity
                                     | discriminate | reflexivity].
  - unfold loadImage. simpl interpolate.
    destruct (imageLoad env _); simpl img_src;
      apply (Hstrip "png"%string); [discriminate | reflexivity
                                    | discriminate | reflexivity].
Qed.

Lemma stripDataUrl_round_trip_witness :
  stripDataUrl ("data:image/" ++ "jpeg" ++ ";base64," ++ "/9j/4AAQSkZJRg==")
  = "/9j/4AAQSkZJRg=="%string.
Proof.
  apply (proj1 (stripDataUrl_round_trip sampleBrowser "jpeg"
                  "/9j/4AAQSkZJRg=="));
    [discriminate | reflexivity].
Defined.

(* ------------------------------------------------------------------ *)
(** ** Recommended topics *)

Lemma generateRecommendedTopics_cases (host : TopicsHost) :
  (1 <= List.length (generateRecommendedTopics host) <= 4)%nat
  /\ (forall text parsed,
         topicsText host = inr (Some text) -> text <> EmptyString ->
         JSON_parse host text = inr (JArray parsed) -> parsed <> [] ->
         generateRecommendedTopics host = firstn 4 parsed)
  /\ ((forall text parsed,
          topicsText host = inr (Some text) -> text <> EmptyString ->
          JSON_parse host text = inr (JArray parsed) -> parsed = []) ->
      generateRecommendedTopics host = defaultTopics).
Proof.
  unfold generateRecommendedTopics.
  destruct (topicsText host) as [e | [text |]].
  - split; [simpl; lia | split; [discriminate | reflexivity]].
  - unfold truthyStr.
    destruct (String.eqb_spec text EmptyString) as [-> | Hne];
      cbn [negb].
    { split; [simpl; lia |].
      split; [| reflexivity].
      intros t p Ht Hn. inversion Ht; subst. congruence. }
    cbn [interpolate].
    destruct (JSON_parse host text) as [e | parsed] eqn:Ep.
    { split; [simpl; lia | split; [| reflexivity]].
      intros t p Ht _ Hp. inversion Ht; subst. congruence. }
    destruct parsed as [| b | q | str | items | fields];
      try (split; [simpl; lia | split; [| reflexivity]];
           intros t p Ht _ Hp; inversion Ht; subst; congruence).
    destruct (Nat.ltb_spec 0 (List.length items)) as [Hpos | Hzero].
    + split; [rewrite length_firstn; lia |].
      split.
      * intros t p Ht _ Hp _. inversion Ht; subst.
        rewrite Ep in Hp. now inversion Hp.
      * intros Hnone.
        specialize (Hnone text items eq_refl Hne Ep). subst items.
        simpl in Hpos. lia.
    + split; [simpl; lia | split; [| reflexivity]].
      intros t p Ht _ Hp Hnil. inversion Ht; subst.
      rewrite Ep in Hp. inversion Hp; subst.
      destruct p; [congruence | simpl in Hzero; lia].
  - split; [simpl; lia | split; [discriminate | reflexivity]].
Qed.

(** X15.  A call of [handleRefreshTopics] while a refresh is running
    changes nothing.  Otherwise, whatever the model service answers, it
    leaves between one and four topics and clears the loading flag: when
    the answer is a non-empty text that parses to a non-empty JSON array
    the topics are the first four entries of that array, and in every
    other case (a rejection, no text, invalid JSON, no array, an empty
    array) they are the service's four default topics.  The page's own
    fallback list is never used. *)
Theorem handleRefreshTopics_bounds (host : TopicsHost)
  (page : TopicsState) :
  (isTopicsLoading page = true -> handleRefreshTopics host page = page)
  /\ (isTopicsLoading page = false ->
      let topics := recommendedTopics (handleRefreshTopics host page) in
      isTopicsLoading (handleRefreshTopics host page) = false
      /\ topics = generateRecommendedTopics host
      /\ (1 <= List.length topics <= 4)%nat
      /\ (forall text parsed,
             topicsText host = inr (Some text) -> text <> EmptyString ->
             JSON_parse host text = inr (JArray parsed) -> parsed <> [] ->
             topics = firstn 4 parsed)
      /\ ((forall text parsed,
              topicsText host = inr (Some text) -> text <> EmptyString ->
              JSON_parse host text = inr (JArray parsed) -> parsed = []) ->
          topics = defaultTopics)).
Proof.
  unfold handleRefreshTopics.
  split; [intros ->; reflexivity |].
  intros ->. cbn [recommendedTopics isTopicsLoading].
  destruct (generateRecommendedTopics_cases host) as (Hlen & Hfour & Hdef).
  assert (Heq : refreshedTopics (inr (generateRecommendedTopics host))
                = generateRecommendedTopics host).
  { unfold refreshedTopics.
    destruct (Nat.ltb_spec 0 (List.length (generateRecommendedTopics host)));
      [reflexivity | lia]. }
  rewrite Heq.
  split; [reflexivity | split; [reflexivity |]].
  split; [exact Hlen | split; [exact Hfour | exact Hdef]].
Qed.

Lemma handleRefreshTopics_bounds_witness :
  recommendedTopics
    (handleRefreshTopics fiveTopicsHost (mkTopicsState pageTopics false))
  = [JString "a"; JString "b"; JString "c"; JString "d"].
Proof.
  apply (proj1 (proj2 (proj2 (proj2
           (proj2 (handleRefreshTopics_bounds fiveTopicsHost
                     (mkTopicsState pageTopics false)) eq_refl))))
           "[five titles]"%string
           [JString "a"; JString "b"; JString "c"; JString "d";
            JString "e"]);
    [reflexivity | discriminate | reflexivity | discriminate].
Defined.

(* ------------------------------------------------------------------ *)
(** ** Saved stories *)

Lemma firstn_two_head {A : Type} (x : A) (l : list A) :
  exists rest, firstn 2 (x :: l) = x :: rest
               /\ (List.length rest <= 1)%nat
               /\ rest = firstn 1 l.
Proof.
  exists (firstn 1 l). split; [reflexivity | split; [| reflexivity]].
  rewrite length_firstn. lia.
Qed.

(** X16.  Saving a story keeps at most two stories, the new one first
    and then the most recent of the old ones.  What
    is written to storage has, in every scene of every story, no audio
    and no video URL, and the same narration, image and transition URL.
    So when a stored story is exported, every scene is shown from its
    still image and lasts exactly 3.0 seconds. *)
Theorem saveStoryToStorage_spec (env : Browser) (savedStories : list Story)
  (story : Story) :
  let '(newSaved, stored) := saveStoryToStorage savedStories story in
  newSaved = story :: firstn 1 savedStories
  /\ (List.length newSaved <= 2)%nat
  /\ stored = map storedStory newSaved
  /\ Forall (fun s =>
               Forall (fun scene =>
                         audioData scene = None /\ videoUrl scene = None
                         /\ sceneDuration (prepareAudio env scene) == 3.0
                         /\ loadSceneVisual env scene
                            = AImage (loadImage env (imageData scene)))
                 (scenes s))
       stored
  /\ Forall2 (fun s t =>
                aspectRatio t = aspectRatio s
                /\ coverImage t = coverImage s
                /\ Forall2 (fun a b =>
                              narration b = narration a
                              /\ imageData b = imageData a
                              /\ transitionVideoUrl b = transitionVideoUrl a)
                     (scenes s) (scenes t))
       newSaved stored.
Proof.
  unfold saveStoryToStorage.
  destruct (firstn_two_head story savedStories) as (rest & -> & Hlen & ->).
  split; [reflexivity |].
  split; [cbn [List.length]; lia |].
  split; [reflexivity |].
  split.
  - apply Forall_map, Forall_forall. intros s _.
    unfold storedStory. simpl scenes.
    apply Forall_map, Forall_forall. intros scene _.
    repeat split.
  - generalize (story :: firstn 1 savedStories). intros l.
    induction l as [| s l IH]; simpl; constructor; [| exact IH].
    split; [reflexivity | split; [reflexivity |]].
    simpl. induction (scenes s) as [| a sc IHs]; simpl; constructor; auto.
Qed.

(* ------------------------------------------------------------------ *)
(** ** Batch generation of transitions *)

Lemma setAt_length {A : Type} (l : list A) :
  forall i x, List.length (setAt l i x) = List.length l.
Proof.
  induction l as [| y l IH]; intros [| i] x; simpl; auto.
Qed.

Lemma setAt_nth_same {A : Type} (l : list A) :
  forall i x, (i < List.length l)%nat -> nth_error (setAt l i x) i = Some x.
Proof.
  induction l as [| y l IH]; intros [| i] x Hi; simpl in *;
    try lia; [reflexivity | apply IH; lia].
Qed.

Lemma setAt_nth_other {A : Type} (l : list A) :
  forall i j x, i <> j -> nth_error (setAt l i x) j = nth_error l j.
Proof.
  induction l as [| y l IH]; intros [| i] [| j] x Hij; simpl; auto;
    try congruence.
Qed.

Lemma setAt_firstn {A : Type} (l : list A) :
  forall i k x, (k <= i)%nat -> firstn k (setAt l i x) = firstn k l.
Proof.
  induction l as [| y l IH]; intros [| i] [| k] x Hk; simpl; auto;
    try lia.
  f_equal. apply IH. lia.
Qed.

Lemma firstn_snoc_nth {A : Type} (l : list A) :
  forall k x, nth_error l k = Some x -> firstn (S k) l = firstn k l ++ [x].
Proof.
  induction l as [| y l IH]; intros [| k] x Hk; simpl in *;
    try discriminate.
  - now inversion Hk.
  - f_equal. now apply IH.
Qed.

Lemma setAt_Forall2 {A : Type} (R : A -> A -> Prop) (orig l : list A) :
  forall i x y,
    Forall2 R orig l -> nth_error orig i = Some x -> R x y ->
    Forall2 R orig (setAt l i y).
Proof.
  intros i x y H. revert i.
  induction H as [| a b orig l Hab Hrest IH]; intros [| i] Hx Hxy;
    simpl in *; try discriminate.
  - inversion Hx; subst. now constructor.
  - constructor; [exact Hab | now apply IH].
Qed.

Lemma filter_all_length {A : Type} (f : A -> bool) (l : list A) :
  List.length (filter f l) = List.length l <-> Forall (fun x => f x = true) l.
Proof.
  induction l as [| x l IH]; simpl.
  - split; [constructor | reflexivity].
  - pose proof (filter_length_le f l) as Hle.
    destruct (f x) eqn:E; simpl.
    + split.
      * intros H. constructor; [exact E | apply IH; lia].
      * intros H. inversion H; subst. f_equal. now apply IH.
    + split; [lia |].
      intros H. inversion H; subst. congruence.
Qed.

Lemma imageOf_length (scene : option Scene) :
  (List.length (imageOf scene) <= 1)%nat.
Proof.
  destruct scene as [sc |]; simpl; [| lia].
  destruct (truthyStr (imageData sc)); simpl; lia.
Qed.

Lemma batchImages_length (scenes : list Scene) (i : nat) :
  (List.length (batchImages scenes i) <= 3)%nat.
Proof.
  unfold batchImages. rewrite !length_app.
  pose proof (imageOf_length (nth_error scenes i)).
  pose proof (imageOf_length (nth_error scenes (i + 1))).
  pose proof (imageOf_length (nth_error scenes (i + 2))).
  lia.
Qed.

Lemma onlyAddsTransition_refl (scene : Scene) :
  onlyAddsTransition scene scene.
Proof. unfold onlyAddsTransition. auto. Qed.

Lemma onlyAddsTransition_all (l : list Scene) :
  Forall2 onlyAddsTransition l l.
Proof.
  induction l; constructor; auto using onlyAddsTransition_refl.
Qed.

Section Batch.

Variable generateVeoSequence :
  list string -> AspectRatio -> Err + option string.
Variable ratio : AspectRatio.
Variable orig : list Scene.
Variable total : nat.

(** What holds before iteration [k]. *)
Let invariant (k : nat) (run : BatchRun) : Prop :=
  Forall2 onlyAddsTransition orig (batchScenes run)
  /\ (forall j, (k <= j)%nat ->
                nth_error (batchScenes run) j = nth_error orig j)
  /\ successCount run
     = List.length (withClip (firstn k (batchScenes run)))
  /\ Forall (fun images => (2 <= List.length images <= 3)%nat)
       (batchRequests run)
  /\ (List.length (batchRequests run) <= k)%nat
  /\ (cooldownSeconds run <= 35 * Nat.min k (total - 1))%nat.

Lemma batchStep_invariant (k : nat) (run : BatchRun) :
  (k < List.length orig)%nat ->
  invariant k run ->
  invariant (S k) (batchStep generateVeoSequence ratio total run k).
Proof.
  intros Hk (Hadd & Hrest & Hcount & Hreq & Hnreq & Hcool).
  assert (Hlen : List.length (batchScenes run) = List.length orig)
    by (symmetry; eapply Forall2_length; eassumption).
  unfold batchStep.
  destruct (nth_error (batchScenes run) k) as [scene |] eqn:Ek.
  2: { apply nth_error_None in Ek. lia. }
  assert (Hok : nth_error orig k = Some scene)
    by (rewrite <- Hrest by lia; exact Ek).
  assert (Hgrow : forall extra,
             (cooldownSeconds run
              + (if (k <? total - 1)%nat then 35 else 0)
              <= 35 * Nat.min (S k) (total - 1))%nat
             /\ (List.length (batchRequests run ++ [extra]) <= S k)%nat).
  { intros extra. rewrite length_app. cbn [List.length].
    destruct (Nat.ltb_spec k (total - 1)); lia. }
  assert (Hkeep : forall n reqs cool,
             n = List.length (withClip (firstn (S k) (batchScenes run))) ->
             Forall (fun images => (2 <= List.length images <= 3)%nat) reqs ->
             (List.length reqs <= S k)%nat ->
             (cool <= 35 * Nat.min (S k) (total - 1))%nat ->
             invariant (S k) (mkBatchRun (batchScenes run) n reqs cool)).
  { intros n reqs cool Hn Hr Hl Hc. unfold invariant. simpl.
    split; [exact Hadd |].
    split; [intros j Hj; apply Hrest; lia |]. auto. }
  assert (Hsnoc : firstn (S k) (batchScenes run)
                  = firstn k (batchScenes run) ++ [scene])
    by (now apply firstn_snoc_nth).
  destruct (truthyStr (transitionVideoUrl scene)) eqn:Et.
  - apply Hkeep; [| exact Hreq | lia | lia].
    rewrite Hsnoc. unfold withClip. rewrite filter_app, length_app.
    simpl. rewrite Et. simpl. unfold withClip in Hcount. lia.
  - assert (Hsame : successCount run
                    = List.length
                        (withClip (firstn (S k) (batchScenes run)))).
    { rewrite Hsnoc. unfold withClip. rewrite filter_app, length_app.
      simpl. rewrite Et. simpl. unfold withClip in Hcount. lia. }
    destruct (Nat.ltb_spec (List.length (batchImages (batchScenes run) k)) 2)
      as [Hfew | Henough].
    { destruct run as [sc n reqs cool].
      cbn [batchScenes successCount batchRequests cooldownSeconds] in *.
      apply Hkeep; [exact Hsame | exact Hreq | lia | lia]. }
    pose proof (batchImages_length (batchScenes run) k) as Hmost.
    assert (Hreq' : Forall (fun images =>
                              (2 <= List.length images <= 3)%nat)
                      (batchRequests run
                       ++ [batchImages (batchScenes run) k])).
    { apply Forall_app. split; [exact Hreq |].
      constructor; [lia | constructor]. }
    destruct (Hgrow (batchImages (batchScenes run) k)) as [Hc' Hl'].
    destruct (generateVeoSequence (batchImages (batchScenes run) k) ratio)
      as [e | url].
    { apply Hkeep; assumption. }
    destruct (truthyStr url) eqn:Eu; [| apply Hkeep; assumption].
    destruct url as [url |]; [| discriminate]. simpl interpolate.
    unfold invariant.
    cbn [batchScenes successCount batchRequests cooldownSeconds].
    split.
    { apply (setAt_Forall2 _ _ _ k scene); [exact Hadd | exact Hok |].
      unfold onlyAddsTransition. simpl.
      repeat split; try reflexivity. congruence. }
    split.
    { intros j Hj. rewrite setAt_nth_other by lia. apply Hrest. lia. }
    split; [| auto].
    rewrite (firstn_snoc_nth _ k (withTransition scene url))
      by (apply setAt_nth_same; lia).
    rewrite setAt_firstn by lia.
    unfold withClip. rewrite filter_app, length_app.
    cbn [filter withTransition transitionVideoUrl].
    rewrite Eu. cbn [List.length]. unfold withClip in Hcount. lia.
Qed.

Lemma batchLoop_invariant (n : nat) :
  (n <= List.length orig)%nat ->
  invariant n
    (fold_left (batchStep generateVeoSequence ratio total) (seq 0 n)
       (mkBatchRun orig 0 [] 0)).
Proof.
  induction n as [| n IH]; intros Hn.
  - unfold invariant. simpl.
    split; [apply onlyAddsTransition_all |].
    split; [reflexivity |].
    split; [reflexivity |].
    split; [constructor | split; lia].
  - rewrite seq_S, fold_left_app. simpl.
    apply batchStep_invariant; [lia | apply IH; lia].
Qed.

End Batch.

(** X17.  A batch run changes nothing of a scene but an unset
    transition URL, and never touches the last scene.  Its success count
    is the number of scenes before the last that have a transition clip
    afterwards, so the "all done" message appears exactly when every one
    of them has one.  Every request carries two or three images, there
    is at most one request per transition, and the rate-limit wait never
    exceeds 35 seconds for each transition but the last. *)
Theorem handleBatchGenerateTransitions_spec
  (generateVeoSequence : list string -> AspectRatio -> Err + option string)
  (story : Story) (run : BatchRun) :
  handleBatchGenerateTransitions true generateVeoSequence story = Some run ->
  let n := List.length (scenes story) in
  Forall2 onlyAddsTransition (scenes story) (batchScenes run)
  /\ nth_error (batchScenes run) (n - 1) = nth_error (scenes story) (n - 1)
  /\ successCount run
     = List.length (withClip (firstn (n - 1) (batchScenes run)))
  /\ (allTransitionsDone story run = true
      <-> (1 <= n)%nat
          /\ Forall (fun scene =>
                       truthyStr (transitionVideoUrl scene) = true)
               (firstn (n - 1) (batchScenes run)))
  /\ Forall (fun images => (2 <= List.length images <= 3)%nat)
       (batchRequests run)
  /\ (List.length (batchRequests run) <= n - 1)%nat
  /\ (cooldownSeconds run <= 35 * (n - 2))%nat.
Proof.
  intros Hrun n. unfold handleBatchGenerateTransitions in Hrun.
  injection Hrun as Hdef. fold n in Hdef.
  destruct (batchLoop_invariant generateVeoSequence (aspectRatio story)
              (scenes story) (n - 1) (n - 1))
    as (Hadd & Hrest & Hcount & Hreq & Hnreq & Hcool); [lia |].
  rewrite Hdef in *. clear Hdef.
  split; [exact Hadd |].
  split; [apply Hrest; lia |].
  split; [exact Hcount |].
  split; [| split; [exact Hreq | split; [exact Hnreq | lia]]].
  unfold allTransitionsDone. fold n. rewrite Z.eqb_eq, Hcount.
  assert (Hlen : List.length (batchScenes run) = n)
    by (symmetry; eapply Forall2_length; eassumption).
  assert (Hfirst : List.length (firstn (n - 1) (batchScenes run))
                   = (n - 1)%nat)
    by (rewrite length_firstn; lia).
  split.
  - intros Heq.
    pose proof (filter_length_le
                  (fun scene => truthyStr (transitionVideoUrl scene))
                  (firstn (n - 1) (batchScenes run))) as Hle.
    unfold withClip in Heq.
    split; [lia |].
    apply filter_all_length. lia.
  - intros [Hn Hall].
    apply filter_all_length in Hall. unfold withClip. lia.
Qed.

Lemma handleBatchGenerateTransitions_spec_witness :
  exists run,
    handleBatchGenerateTransitions true
      (fun images _ => inr (Some "blob:transition"%string)) storyWithClip
    = Some run
    /\ successCount run = 1%nat
    /\ allTransitionsDone storyWithClip run = true.
Proof.
  eexists. split; [reflexivity |].
  pose proof (handleBatchGenerateTransitions_spec
                (fun images _ => inr (Some "blob:transition"%string))
                storyWithClip _ eq_refl) as H.
  split; [exact (proj1 (proj2 (proj2 H))) | reflexivity].
Defined.

(* ------------------------------------------------------------------ *)
(** ** Generated stories *)

(** X18.  A story that [handleGenerate] builds has one scene more than
    the generated structure, the closing scene last, with the
    narrations in order and without video or transition clips; a failed
    image, voice-over or cover does not stop it.  So on every host whose
    audio context resumes its export completes, with the whole timeline
    in the blob. *)
Theorem handleGenerate_story_exports (studio : Studio) (env : Browser)
  (topicInput : string) (ratio : AspectRatio) (voice : string)
  (story : Story) (customCover : option string) (w : World) :
  handleGenerate studio topicInput ratio voice = inr story ->
  resume env = None ->
  (exists structure,
      generateStoryStructure studio topicInput ratio = inr structure
      /\ List.length (scenes story)
         = (List.length (structure_scenes structure) + 1)%nat
      /\ map narration (scenes story)
         = map outline_narration (structure_scenes structure)
           ++ [outline_narration (outroScene structure)])
  /\ aspectRatio story = ratio
  /\ Forall (fun scene =>
               videoUrl scene = None /\ transitionVideoUrl scene = None)
       (scenes story)
  /\ exists blob,
      fst (generateStoryVideo env story customCover w) = Resolved blob
      /\ blob_parts blob = rendered w ++ timeline env story customCover.
Proof.
  unfold handleGenerate. intros Hgen Hres.
  destruct (generateStoryStructure studio topicInput ratio)
    as [e | structure]; [discriminate |].
  inversion Hgen as [Hstory]. clear Hgen.
  assert (Hstill : Forall (fun scene =>
                             videoUrl scene = None
                             /\ transitionVideoUrl scene = None)
                     (map (sceneWithAssets studio ratio voice)
                        (structure_scenes structure
                         ++ [outroScene structure]))).
  { apply Forall_map, Forall_forall. intros outline _. now split. }
  split.
  { exists structure. split; [reflexivity |]. simpl scenes.
    split.
    - rewrite length_map, length_app. reflexivity.
    - rewrite map_map, map_app. reflexivity. }
  split; [reflexivity |].
  split; [exact Hstill |].
  set (story' := mkStory ratio _ _) in *.
  assert (Hex : exportable env story' = true).
  { unfold exportable. rewrite Hres. simpl.
    apply andb_true_iff. split.
    - apply forallb_forall. intros [i scene] Hin.
      apply indexed_In in Hin. destruct Hin as [_ Hnth].
      rewrite Nat.sub_0_r in Hnth.
      rewrite Forall_forall in Hstill.
      destruct (Hstill scene (nth_error_In _ _ Hnth)) as [Hv Ht].
      unfold sceneRuns, loadSceneVisual. rewrite Hv. simpl.
      unfold transitionAfter, transitionAssetsOf.
      rewrite (nth_error_map_some _ _ _ _ Hnth).
      unfold loadSceneTransition. rewrite Ht. simpl.
      now destruct (nth_error _ (i + 1)).
    - subst story'. simpl scenes. rewrite length_map, length_app.
      simpl. now rewrite Nat.add_1_r. }
  apply (generateStoryVideo_resolves env story' customCover w) in Hex.
  destruct Hex as [blob Hblob].
  exists blob. split; [exact Hblob |].
  now apply generateStoryVideo_resolved_parts.
Qed.

Lemma handleGenerate_story_exports_witness :
  exists blob,
    fst (generateStoryVideo sampleBrowser
           (mkStory Wide16x9
              (map (sceneWithAssets bareStudio Wide16x9 "Kore")
                 ([] ++ [outroScene (mkStructure "t" [])]))
              None)
           None initialWorld) = Resolved blob.
Proof.
  destruct (handleGenerate_story_exports bareStudio sampleBrowser "topic"
              Wide16x9 "Kore" _ None initialWorld eq_refl eq_refl)
    as (_ & _ & _ & blob & Hblob & _).
  exists blob. exact Hblob.
Defined.

(* ------------------------------------------------------------------ *)
(** ** Scene frames fill the canvas *)





(* ------------------------------------------------------------------ *)
(** ** Cover images *)

Lemma keepTruthy_nonempty_strings (l : list (option string)) :
  Forall (fun image => image <> EmptyString) (GeminiService.keepTruthy l).
Proof.
  unfold GeminiService.keepTruthy.
  induction l as [| o l IH]; simpl; [constructor |].
  apply Forall_app. split; [| exact IH].
  destruct o as [image |]; simpl; [| constructor].
  destruct (String.eqb_spec image EmptyString) as [-> | Hne]; simpl;
    [constructor | constructor; [exact Hne | constructor]].
Qed.

Lemma promiseAll_length {A : Type}
  (settled : list (GeminiService.Failure + A)) :
  forall values,
    GeminiService.promiseAll settled = inr values ->
    List.length values = List.length settled.
Proof.
  induction settled as [| [e | a] rest IH]; intros values H; simpl in H.
  - now inversion H.
  - discriminate.
  - destruct (GeminiService.promiseAll rest) as [e | vs]; [discriminate |].
    inversion H; subst. simpl. f_equal. now apply IH.
Qed.

Lemma keepTruthy_length (l : list (option string)) :
  (List.length (GeminiService.keepTruthy l) <= List.length l)%nat.
Proof.
  unfold GeminiService.keepTruthy.
  induction l as [| o l IH]; simpl; [lia |].
  rewrite length_app. destruct (truthyStr o); simpl; lia.
Qed.

Lemma fromImagen_fails (service : GeminiService.ImageService)
  (prompt : string) (ratio : AspectRatio) (count : nat)
  (e : GeminiService.Failure) :
  GeminiService.fromImagen service prompt ratio count = inl e
  <-> GeminiService.imagenFails service prompt ratio count e.
Proof.
  unfold GeminiService.fromImagen, GeminiService.imagenFails.
  destruct (GeminiService.generateImages service prompt ratio count)
    as [e' | [generated |]].
  - split.
    + intros H. inversion H. now left.
    + intros [H | [_ [H | (g & H & _)]]]; try discriminate.
      now inversion H.
  - destruct (Nat.ltb_spec 0
                (List.length (GeminiService.keepTruthy generated)))
      as [Hpos | Hzero].
    + split; [discriminate |].
      intros [H | [_ [H | (g & H & Hnil)]]]; try discriminate.
      inversion H; subst g. rewrite Hnil in Hpos. simpl in Hpos. lia.
    + split.
      * intros H. inversion H. right. split; [reflexivity |].
        right. exists generated. split; [reflexivity |].
        destruct (GeminiService.keepTruthy generated);
          [reflexivity | simpl in Hzero; lia].
      * intros [H | [-> _]]; [discriminate | reflexivity].
  - split.
    + intros H. inversion H. right. split; [reflexivity | now left].
    + intros [H | [-> _]]; [discriminate | reflexivity].
Qed.

Lemma promiseAll_resolves {A B : Type}
  (f : A -> GeminiService.Failure + B) (l : list A) :
  forall values,
    GeminiService.promiseAll (map f l) = inr values
    <-> Forall2 (fun a b => f a = inr b) l values.
Proof.
  induction l as [| a l IH]; intros values; simpl.
  - split.
    + intros H. inversion H. constructor.
    + intros H. now inversion H.
  - destruct (f a) as [e | b] eqn:Ea.
    + split; [discriminate |].
      intros H. inversion H; subst. congruence.
    + destruct (GeminiService.promiseAll (map f l)) as [e | vs] eqn:Ep.
      * split; [discriminate |].
        intros H. inversion H as [| ? b' ? vs' Hb Hrest]; subst.
        apply IH in Hrest. discriminate.
      * split.
        -- intros H. inversion H; subst.
           constructor; [exact Ea | now apply IH].
        -- intros H. inversion H as [| ? b' ? vs' Hb Hrest]; subst.
           apply IH in Hrest. inversion Hrest; subst.
           rewrite Ea in Hb. now inversion Hb.
Qed.

Lemma promiseAll_rejects {A B : Type}
  (f : A -> GeminiService.Failure + B) (l : list A) :
  (exists a, In a l /\ exists e, f a = inl e) ->
  exists a e,
    In a l /\ f a = inl e /\ GeminiService.promiseAll (map f l) = inl e.
Proof.
  induction l as [| a l IH]; intros (x & Hin & e & Hx); [destruct Hin |].
  simpl.
  destruct (f a) as [e' | b] eqn:Ea.
  - exists a, e'. split; [now left | split; [exact Ea | reflexivity]].
  - destruct Hin as [-> | Hin]; [congruence |].
    destruct IH as (y & ey & Hy & Hfy & Hall); [eauto |].
    exists y, ey. split; [now right | split; [exact Hfy |]].
    now rewrite Hall.
Qed.

(** X20.  [generateCoverImage] resolves with the truthy images of the
    primary endpoint when there is at least one.  When the primary
    endpoint gives none, it sends [min(count, 4)] fallback requests: if
    they all resolve it resolves with their truthy images when there is
    at least one and rejects with the primary failure otherwise; if one
    of them rejects it rejects with the rejection of a failed request.
    So it never resolves with an empty list or with an empty image, and
    the fallback never returns more than four images however many were
    asked for. *)
Theorem generateCoverImage_never_empty
  (service : GeminiService.ImageService) (topic : string)
  (ratio : AspectRatio) (count : nat) :
  let prompt := GeminiService.coverPrompt topic ratio in
  let prompts := GeminiService.promptsToRun prompt ratio count in
  let result := GeminiService.generateCoverImage service topic ratio count in
  List.length prompts = Nat.min count 4
  /\ ((exists generated,
          GeminiService.generateImages service prompt ratio count
          = inr (Some generated)
          /\ GeminiService.keepTruthy generated <> [])
      \/ exists e, GeminiService.imagenFails service prompt ratio count e)
  /\ (forall generated,
         GeminiService.generateImages service prompt ratio count
         = inr (Some generated) ->
         GeminiService.keepTruthy generated <> [] ->
         result = inr (GeminiService.keepTruthy generated))
  /\ (forall e,
         GeminiService.imagenFails service prompt ratio count e ->
         (forall responses,
             Forall2 (fun p r =>
                        GeminiService.generateContentImage service p = inr r)
               prompts responses ->
             (GeminiService.keepTruthy responses <> [] ->
              result = inr (GeminiService.keepTruthy responses))
             /\ (GeminiService.keepTruthy responses = [] -> result = inl e)
             /\ (List.length (GeminiService.keepTruthy responses)
                 <= Nat.min count 4)%nat)
         /\ ((exists p,
                 In p prompts
                 /\ exists fe,
                     GeminiService.generateContentImage service p = inl fe) ->
             exists p fe,
               In p prompts
               /\ GeminiService.generateContentImage service p = inl fe
               /\ result = inl fe))
  /\ (forall images,
         result = inr images ->
         images <> [] /\ Forall (fun image => image <> EmptyString) images).
Proof.
  intros prompt prompts result.
  assert (Hprompts : List.length prompts = Nat.min count 4).
  { unfold prompts, GeminiService.promptsToRun, GeminiService.variations.
    destruct (Nat.eqb_spec count 1) as [-> | Hne]; [reflexivity |].
    rewrite length_map, length_firstn. reflexivity. }
  assert (Hprimary : forall generated,
             GeminiService.generateImages service prompt ratio count
             = inr (Some generated) ->
             GeminiService.keepTruthy generated <> [] ->
             GeminiService.fromImagen service prompt ratio count
             = inr (GeminiService.keepTruthy generated)).
  { intros generated Hgen Hne. unfold GeminiService.fromImagen.
    rewrite Hgen.
    destruct (Nat.ltb_spec 0
                (List.length (GeminiService.keepTruthy generated)));
      [reflexivity |].
    destruct (GeminiService.keepTruthy generated);
      [congruence | simpl in *; lia]. }
  split; [exact Hprompts |].
  split.
  { destruct (GeminiService.fromImagen service prompt ratio count)
      as [e | images] eqn:Ep.
    - right. exists e. now apply fromImagen_fails.
    - left. unfold GeminiService.fromImagen in Ep.
      destruct (GeminiService.generateImages service prompt ratio count)
        as [e | [generated |]]; try discriminate.
      exists generated. split; [reflexivity |].
      destruct (Nat.ltb_spec 0
                  (List.length (GeminiService.keepTruthy generated)))
        as [Hpos | Hzero]; [| discriminate].
      intros H0. rewrite H0 in Hpos. simpl in Hpos. lia. }
  split.
  { intros generated Hgen Hne.
    unfold result, GeminiService.generateCoverImage. fold prompt.
    now rewrite (Hprimary generated Hgen Hne). }
  split.
  { intros e He. apply fromImagen_fails in He.
    split.
    - intros responses Hall.
      apply promiseAll_resolves in Hall.
      unfold result, GeminiService.generateCoverImage.
      fold prompt. fold prompts. rewrite He, Hall.
      split; [| split].
      + intros Hne.
        destruct (Nat.ltb_spec 0
                    (List.length (GeminiService.keepTruthy responses)));
          [reflexivity |].
        destruct (GeminiService.keepTruthy responses);
          [congruence | simpl in *; lia].
      + intros ->. reflexivity.
      + apply promiseAll_length in Hall.
        rewrite length_map, Hprompts in Hall.
        pose proof (keepTruthy_length responses). lia.
    - intros Hrej.
      destruct (promiseAll_rejects
                  (GeminiService.generateContentImage service) prompts Hrej)
        as (p & fe & Hin & Hp & Hall).
      exists p, fe. split; [exact Hin | split; [exact Hp |]].
      unfold result, GeminiService.generateCoverImage.
      fold prompt. fold prompts. now rewrite He, Hall. }
  intros images. unfold result, GeminiService.generateCoverImage.
  fold prompt. fold prompts.
  destruct (GeminiService.fromImagen service prompt ratio count)
    as [e | primary] eqn:Ep.
  - destruct (GeminiService.promiseAll _) as [fe | responses] eqn:Ea;
      [discriminate |].
    destruct (Nat.ltb_spec 0
                (List.length (GeminiService.keepTruthy responses)))
      as [Hpos | Hzero]; [| discriminate].
    intros H. inversion H; subst images.
    split; [intros H0; rewrite H0 in Hpos; simpl in Hpos; lia |].
    apply keepTruthy_nonempty_strings.
  - intros H. inversion H; subst images.
    unfold GeminiService.fromImagen in Ep.
    destruct (GeminiService.generateImages service prompt ratio count)
      as [e | [generated |]]; try discriminate.
    destruct (Nat.ltb_spec 0
                (List.length (GeminiService.keepTruthy generated)))
      as [Hpos | Hzero]; [| discriminate].
    inversion Ep; subst primary.
    split; [intros H0; rewrite H0 in Hpos; simpl in Hpos; lia |].
    apply keepTruthy_nonempty_strings.
Qed.

Lemma generateCoverImage_never_empty_witness :
  GeminiService.generateCoverImage GeminiService.fallbackOnlyService
    "topic" Tall9x16 2
  = inr ["aW1hZ2U="%string; "aW1hZ2U="%string].
Proof.
  apply (proj1 (proj1 (proj1 (proj2 (proj2 (proj2
           (generateCoverImage_never_empty
              GeminiService.fallbackOnlyService "topic" Tall9x16 2))))
           (GeminiService.JsError "quota") (or_introl eq_refl))
           [Some "aW1hZ2U="%string; Some "aW1hZ2U="%string]
           ltac:(repeat constructor))).
  discriminate.
Defined.
